(** * COO -> CSR construction and the two SpMV kernels of csrpar.cpp / csrseq.cpp

    A shallow embedding of the core of the two programs of the repository
    (the OpenMP program [csrpar.cpp] and its sequential twin):

    - [compareTriplets], the COO -> CSR conversion of [main]
      ([coo_to_csr]) and the two kernels [spmv_csr_sequential] and
      [spmv_csr_parallel];
    - the command line handling and the warm-up + timed-runs loop of [main],
      and [extract_matrix_name].

    Modelling conventions.

    - A C++ [int] is a [Z] between [INT_MIN] and [INT_MAX] (32 bits).  The
      arithmetic of the code on ints is [+ 1] and [- 1].  Where it can
      leave that range, on [rows + 1], on [current_row + 1] and on the
      indices [r - 1] and [c - 1] read from the file, it wraps around
      ([int_add], [int_sub]), as it does in the compiled programs (the C++
      standard leaves signed overflow undefined).  A loop counter that is
      compared with an [int] bound before it is incremented stays below
      [INT_MAX], and is incremented in [Z].
    - A C++ [double] is a primitive binary64 [float]; [sum += a * b] is
      [sum + a * b] with IEEE-754 rounding to nearest after each of the
      two operations (the programs are built with [g++ -std=c++11], which
      does not contract them into a fused multiply-add).
    - [std::vector] and the raw arrays obtained with [.data()] are lists.
      Reading or writing outside a vector is undefined behaviour in C++:
      the access is not checked, nothing is reported and the program may
      well go on.  Here a function either returns its result or the first
      fault it runs into; the fault [OutOfBounds] says that the function
      makes an access out of bounds, and nothing about what follows it.
    - [std::sort] comes from the C++ library, which leaves the order of
      elements with equivalent keys open.  The conversion is therefore
      parametrised by the sorting function; the theorems assume the
      library's contract for it ([is_std_sort]).
    - [#pragma omp parallel for] hands every iteration of the row loop to
      exactly one thread of the team.  An iteration reads only [A] and [v]
      and writes the single slot [c_out[i]], so a run of the loop is
      described by the order in which its iterations are carried out
      together with the thread that carries out each one ([omp_run]).
      The output vector is a vector of its own, as in [main]: it shares
      no storage with [A] or [v]. *)

From Stdlib Require Import ZArith Floats Ascii String.
From stdpp Require Import base tactics option list list_numbers sorting strings.
From Equations Require Import Equations.

Local Open Scope Z_scope.

(** ** Faults and the error monad *)

Inductive fault : Set :=
| OutOfBounds   (* an access outside a vector or array is made: undefined
                   behaviour from there on *)
| LengthError.  (* std::length_error is thrown: a vector of negative size
                   requested *)

Inductive result (A : Type) : Type :=
| Ok (a : A)
| Err (e : fault).
Arguments Ok {A} a.
Arguments Err {A} e.

Definition bind {A B : Type} (m : result A) (k : A -> result B) : result B :=
  match m with
  | Ok a => k a
  | Err e => Err e
  end.

Notation "'let*' x ':=' m 'in' k" := (bind m (fun x => k))
  (at level 10, x pattern, m at level 200, k at level 200,
   format "'[v' 'let*'  x  ':='  m  'in' '/' k ']'").

(** ** Integers *)

Definition INT_MAX : Z := 2147483647.
Definition INT_MIN : Z := -2147483648.

(** The [int] that a result [z] of an addition or subtraction of two
    ints is stored as. *)
Definition wrap (z : Z) : Z := (z + 2147483648) mod 4294967296 - 2147483648.

Definition int_add (a b : Z) : Z := wrap (a + b).
Definition int_sub (a b : Z) : Z := wrap (a - b).

(** ** Vectors *)

Section vectors.
Context {A : Type}.

(** [v[i]] used as an rvalue. *)
Definition vec_read (v : list A) (i : Z) : result A :=
  if decide (0 <= i) then
    match v !! Z.to_nat i with
    | Some x => Ok x
    | None => Err OutOfBounds
    end
  else Err OutOfBounds.

(** [v[i] = x]. *)
Definition vec_write (v : list A) (i : Z) (x : A) : result (list A) :=
  if decide (0 <= i < Z.of_nat (length v)) then Ok (<[Z.to_nat i := x]> v)
  else Err OutOfBounds.

(** [v.assign(n, x)], [v.resize(n)] on an empty vector and the
    constructor [vector<T> v(n, x)]: the [int] count is converted to
    [size_t], so that a negative count asks for more than [max_size()]
    elements. *)
Definition vec_alloc (n : Z) (x : A) : result (list A) :=
  if decide (0 <= n) then Ok (replicate (Z.to_nat n) x) else Err LengthError.
End vectors.

(** ** Loops *)

(** [for (int i = lo; i < hi; ++i) body], the loop state threaded through
    the body. *)
Equations? for_int {S : Type} (body : Z -> S -> result S) (hi i : Z) (s : S) :
    result S by wf (Z.to_nat (hi - i)) lt :=
  for_int body hi i s with decide (i < hi) := {
    | right _ := Ok s;
    | left _ with body i s := {
        | Err e := Err e;
        | Ok s' := for_int body hi (i + 1) s' } }.
Proof. lia. Qed.

(** The iterations [l] of a loop body carried out one after the other. *)
Fixpoint for_each {S : Type} (body : Z -> S -> result S) (l : list Z) (s : S) :
    result S :=
  match l with
  | [] => Ok s
  | i :: l' =>
      let* s' := body i s in
      for_each body l' s'
  end.

(** ** Data model *)

Record Triplet : Set := mkTriplet { row : Z; col : Z; val : float }.

Definition compareTriplets (a b : Triplet) : bool :=
  if decide (row a < row b) then true
  else if decide (row a = row b) then bool_decide (col a < col b)
  else false.

Record CsrMatrix : Set := mkCsr {
  rows : Z;
  cols : Z;
  nnz : Z;
  row_ptr : list Z;
  col_ind : list Z;
  values : list float
}.

(** ** The kernels *)

(** The body of the row loop, the same text in both kernels: the inner
    loop accumulates into [sum], then [c_out[i] = sum]. *)
Definition row_sum (A : CsrMatrix) (v : list float) (i : Z) : result float :=
  let* row_start := vec_read (row_ptr A) i in
  let* row_end := vec_read (row_ptr A) (i + 1) in
  for_int (fun j sum =>
      let* a := vec_read (values A) j in
      let* cj := vec_read (col_ind A) j in
      let* x := vec_read v cj in
      Ok (sum + a * x)%float)
    row_end row_start 0%float.

Definition spmv_row (A : CsrMatrix) (v : list float) (i : Z) (c : list float) :
    result (list float) :=
  let* sum := row_sum A v i in
  vec_write c i sum.

(** [c] is the output vector as the caller hands it over; the result is
    the output vector as the kernel leaves it. *)
Definition spmv_csr_sequential (A : CsrMatrix) (v c : list float) :
    result (list float) :=
  for_int (spmv_row A v) (rows A) 0 c.

(** ** The OpenMP worksharing loop *)

Inductive omp_sched_t : Set :=
| omp_sched_static
| omp_sched_dynamic
| omp_sched_guided.

(** The internal control variables that [main] sets with
    [omp_set_num_threads] and [omp_set_schedule]. *)
Record omp_icv : Set := mkIcv {
  nthreads_var : Z;
  run_sched_kind : omp_sched_t;
  run_sched_chunk : Z
}.

(** A run of the parallel row loop: the iterations in the order in which
    they are carried out, each with the number of the thread that carries
    it out. *)
Definition omp_run : Set := list (nat * Z).

(** The thread that owns iteration [i] under [schedule(static, chunk)] in
    a team of [team] threads: blocks of [chunk] iterations are dealt out
    round-robin. *)
Definition static_owner (team : nat) (chunk i : Z) : nat :=
  Z.to_nat ((i / chunk) mod Z.of_nat team).

(** What OpenMP promises for [#pragma omp parallel for schedule(runtime)]
    over the iterations [0 .. n-1]: a team of at least one and at most
    [nthreads_var] threads, every iteration carried out exactly once by one
    thread of the team, and for the static schedule with a chunk size the
    round-robin assignment of blocks.  The dynamic and guided schedules
    (and chunk sizes below 1, which select the default chunk) assign the
    iterations at run time. *)
Definition omp_schedules (icv : omp_icv) (n : Z) (run : omp_run) : Prop :=
  exists team : nat,
    (1 <= team)%nat /\
    Z.of_nat team <= Z.max 1 (nthreads_var icv) /\
    Forall (fun e => (e.1 < team)%nat) run /\
    run.*2 ≡ₚ seqZ 0 n /\
    (run_sched_kind icv = omp_sched_static -> 1 <= run_sched_chunk icv ->
     Forall (fun e => e.1 = static_owner team (run_sched_chunk icv) e.2) run).

(** The static schedule with one thread finishing after the other: the
    run in which thread 0 carries out all of its blocks, then thread 1,
    and so on. *)
Definition static_run (team : nat) (chunk n : Z) : omp_run :=
  t ← seq 0 team;
  (fun i => (t, i)) <$> filter (fun i => static_owner team chunk i = t) (seqZ 0 n).

(** The parallel kernel under the run that the OpenMP runtime chose: the
    body of the row loop for each iteration of the run, in its order. *)
Definition spmv_csr_parallel (run : omp_run) (A : CsrMatrix) (v c : list float) :
    result (list float) :=
  for_each (spmv_row A v) run.*2 c.

(** ** COO -> CSR *)

(** [b] does not go before [a]: [comp(b, a)] is false. *)
Definition not_after (comp : Triplet -> Triplet -> bool) (a b : Triplet) : Prop :=
  comp b a = false.

#[global] Instance not_after_dec comp a b : Decision (not_after comp a b).
Proof. unfold not_after. apply _. Defined.

(** The library's contract for [std::sort(first, last, comp)]: the
    result holds the same elements, and no element is followed, however
    far behind, by one that [comp] puts before it. *)
Definition is_std_sort (comp : Triplet -> Triplet -> bool)
    (sort : list Triplet -> list Triplet) : Prop :=
  forall l, sort l ≡ₚ l /\ StronglySorted (not_after comp) (sort l).

(** A sorting function that meets the contract (a merge sort). *)
Definition merge_sort_triplets : list Triplet -> list Triplet :=
  merge_sort (not_after compareTriplets).

Definition set_row_ptr (csr : CsrMatrix) (rp : list Z) : CsrMatrix :=
  mkCsr (rows csr) (cols csr) (nnz csr) rp (col_ind csr) (values csr).
Definition set_col_ind (csr : CsrMatrix) (ci : list Z) : CsrMatrix :=
  mkCsr (rows csr) (cols csr) (nnz csr) (row_ptr csr) ci (values csr).
Definition set_values (csr : CsrMatrix) (vs : list float) : CsrMatrix :=
  mkCsr (rows csr) (cols csr) (nnz csr) (row_ptr csr) (col_ind csr) vs.

(** [while (current_row < triplets[i].row) { ++current_row;
    csr.row_ptr[current_row] = i; }], with [r] the row of [triplets[i]]. *)
Equations? skip_rows (i r : Z) (current_row : Z) (csr : CsrMatrix) :
    result (Z * CsrMatrix) by wf (Z.to_nat (r - current_row)) lt :=
  skip_rows i r current_row csr with decide (current_row < r) := {
    | right _ := Ok (current_row, csr);
    | left _ with vec_write (row_ptr csr) (current_row + 1) i := {
        | Err e := Err e;
        | Ok rp := skip_rows i r (current_row + 1) (set_row_ptr csr rp) } }.
Proof. lia. Qed.

(** The body of the scan over the sorted triplets. *)
Definition scan_step (triplets : list Triplet) (i : Z) (st : Z * CsrMatrix) :
    result (Z * CsrMatrix) :=
  let '(current_row, csr) := st in
  let* t := vec_read triplets i in
  let* ci := vec_write (col_ind csr) i (col t) in
  let csr := set_col_ind csr ci in
  let* vs := vec_write (values csr) i (val t) in
  let csr := set_values csr vs in
  skip_rows i (row t) current_row csr.

(** The last loop: [for (int i = current_row + 1; i <= rows; ++i)
    csr.row_ptr[i] = nnz;]. *)
Definition fill_step (i : Z) (csr : CsrMatrix) : result CsrMatrix :=
  let* rp := vec_write (row_ptr csr) i (nnz csr) in
  Ok (set_row_ptr csr rp).

(** Lines 181-204 of [main]: sort, allocate, scan, fill.  The size
    [rows + 1] of [row_ptr] and the start [current_row + 1] of the last
    loop are ints.  The test [i <= rows] of the last loop is
    [i < rows + 1] in [Z]; the loop is reached with [rows < INT_MAX] only
    (for [rows = INT_MAX] the allocation has thrown), so that its counter
    does not overflow. *)
Definition coo_to_csr (sort : list Triplet -> list Triplet)
    (triplets : list Triplet) (rows cols nnz : Z) : result CsrMatrix :=
  let triplets := sort triplets in
  let* rp := vec_alloc (int_add rows 1) 0 in
  let* ci := vec_alloc nnz 0 in
  let* vs := vec_alloc nnz 0%float in
  let csr := mkCsr rows cols nnz rp ci vs in
  let* (current_row, csr) := for_int (scan_step triplets) nnz 0 (0, csr) in
  for_int fill_step (rows + 1) (int_add current_row 1) csr.

(** [nnz] is the number of triplets that [main] has read. *)
Definition build (sort : list Triplet -> list Triplet)
    (triplets : list Triplet) (rows cols : Z) : result CsrMatrix :=
  coo_to_csr sort triplets rows cols (Z.of_nat (length triplets)).

(** ** [extract_matrix_name] *)

(** A [std::string] is the list of its characters here. *)

(** [s.find_last_of(chars)]: the position of the last character of [s]
    that is one of [chars]; [None] is [string::npos]. *)
Fixpoint find_last_of (chars s : list ascii) : option nat :=
  match s with
  | [] => None
  | c :: s' =>
      match find_last_of chars s' with
      | Some pos => Some (S pos)
      | None => if bool_decide (c ∈ chars) then Some 0%nat else None
      end
  end.

(** The two characters of ["/\\"]. *)
Definition separators : list ascii := ["/"; "\"]%char.

Definition mtx_ext : list ascii := ["."; "m"; "t"; "x"]%char.

(** [s.erase(pos, n)] for [pos <= s.size()]: the characters from [pos]
    to [pos + n], or to the end of [s], go. *)
Definition erase (pos n : nat) (s : list ascii) : list ascii :=
  take pos s ++ drop (pos + n) s.

(** The directory part goes, and so does the extension [.mtx] of a file
    name that is longer than the extension. *)
Definition extract_matrix_name (path : list ascii) : list ascii :=
  let filename :=
    match find_last_of separators path with
    | None => path
    | Some pos => drop (pos + 1) path
    end in
  let ext := mtx_ext in
  if decide ((length ext < length filename)%nat /\
             take (length ext) (drop (length filename - length ext) filename) = ext)
  then erase (length filename - length ext) (length ext) filename
  else filename.

(** ** [main] of csrpar.cpp *)

(** [csrseq.cpp] has the same [main] without the OpenMP settings, around
    the sequential kernel; the kernel is a parameter of the benchmark loop
    below for that reason. *)

(** The messages that [main] writes to [cerr]. *)
Inductive message : Set :=
| MsgUsage              (* "Usage: ... <matrix.mtx> <schedule_type> <chunk_size> <num_threads>" *)
| MsgNotInteger         (* "Error: chunk_size and num_threads must be integer values." *)
| MsgInvalidScheduling  (* "Error: invalid scheduling type. Use: static, dynamic, guided" *)
| MsgCannotOpen         (* "Error: could not open file ..." *)
| MsgErrorReading.      (* "Error reading matrix data." *)

(** What the program does to the outside world, in order. *)
Inductive event : Set :=
| EvStderr (msg : message)
| EvSetNumThreads (n : Z)              (* omp_set_num_threads(n) *)
| EvSetSchedule (k : omp_sched_t) (chunk : Z)  (* omp_set_schedule(k, chunk) *)
| EvOpen (filename : string)           (* ifstream file(filename) *)
| EvRandom                             (* one dist(gen) *)
| EvWtime                              (* one omp_get_wtime() *)
| EvKernel                             (* one call of the kernel *)
| EvCsv (matrix_name : list ascii) (schedule : string) (chunk threads : Z)
        (times_ms : list float).     (* the line written to cout *)

(** The numbers of a Matrix Market file as the stream extractions of
    [main] see them: the three [int]s of the size line and the entries
    that follow (two [int]s and a [double] each), with 1-based indices. *)
Record mtx_file : Set := mkMtx {
  mm_rows : Z;
  mm_cols : Z;
  mm_nnz : Z;
  mm_entries : list (Z * Z * float)
}.

(** What [main] gets from outside: the files, the value that the k-th
    call [dist(gen)] of a [uniform_real_distribution<double> dist(a, b)]
    returns, the value that the k-th call of [omp_get_wtime()] returns,
    and the run that the OpenMP runtime chooses for the k-th parallel
    loop. *)
Record environment : Type := mkEnv {
  file_system : string -> option mtx_file;
  random_draw : float -> float -> nat -> float;
  wall_clock : nat -> float;
  omp_runtime : omp_icv -> Z -> nat -> omp_run
}.

(** How far the program has got: the numbers of values drawn, of clock
    readings and of kernel calls so far, and the trace of its events. *)
Record world : Set := mkWorld {
  n_draws : nat;
  n_ticks : nat;
  n_calls : nat;
  trace : list event
}.

(** [dist(gen)] for [uniform_real_distribution<double> dist(a, b)]. *)
Definition dist_gen (env : environment) (a b : float) (w : world) : float * world :=
  (random_draw env a b (n_draws w),
   mkWorld (S (n_draws w)) (n_ticks w) (n_calls w) (trace w ++ [EvRandom])).

Definition omp_get_wtime (env : environment) (w : world) : float * world :=
  (wall_clock env (n_ticks w),
   mkWorld (n_draws w) (S (n_ticks w)) (n_calls w) (trace w ++ [EvWtime])).

(** A kernel as the benchmark loop sees it: the k-th call on [(A, v, c)]. *)
Definition kernel : Type :=
  nat -> CsrMatrix -> list float -> list float -> result (list float).

Definition sequential_kernel : kernel := fun _ => spmv_csr_sequential.

Definition parallel_kernel (env : environment) (icv : omp_icv) : kernel :=
  fun k A => spmv_csr_parallel (omp_runtime env icv (rows A) k) A.

(** The variables of [main] that the benchmark works on, and the world. *)
Record bench_state : Set := mkBench {
  b_csr : CsrMatrix;
  b_v_input : list float;
  b_c_output : list float;
  b_times_ms : list float;
  b_world : world
}.

(** [kernel(csr, v_input, c_output);] the matrix and the input vector are
    passed by [const] reference, the output vector by reference. *)
Definition call_kernel (f : kernel) (st : bench_state) : result bench_state :=
  let w := b_world st in
  let* c := f (n_calls w) (b_csr st) (b_v_input st) (b_c_output st) in
  Ok (mkBench (b_csr st) (b_v_input st) c (b_times_ms st)
        (mkWorld (n_draws w) (n_ticks w) (S (n_calls w)) (trace w ++ [EvKernel]))).

(** [uniform_real_distribution<double> dist(-1000.0, 1000.0);
    for (int i = 0; i < cols; ++i) v_input[i] = dist(gen);] *)
Definition random_step (env : environment) (i : Z) (st : bench_state) :
    result bench_state :=
  let '(x, w) := dist_gen env (-1000)%float 1000%float (b_world st) in
  let* v := vec_write (b_v_input st) i x in
  Ok (mkBench (b_csr st) v (b_c_output st) (b_times_ms st) w).

Definition NUM_RUNS : Z := 10.

(** The body of the timed loop. *)
Definition timed_step (env : environment) (f : kernel) (run : Z) (st : bench_state) :
    result bench_state :=
  let '(start, w) := omp_get_wtime env (b_world st) in
  let st := mkBench (b_csr st) (b_v_input st) (b_c_output st) (b_times_ms st) w in
  let* st := call_kernel f st in
  let '(end_, w) := omp_get_wtime env (b_world st) in
  let* t := vec_write (b_times_ms st) run ((end_ - start) * 1000)%float in
  Ok (mkBench (b_csr st) (b_v_input st) (b_c_output st) t w).

(** Lines 206-229: the random vector, the warm-up call and [num_runs]
    timed calls ([main] has [num_runs = NUM_RUNS]). *)
Definition benchmark (env : environment) (f : kernel) (num_runs : Z)
    (csr : CsrMatrix) (w : world) : result bench_state :=
  let* v := vec_alloc (cols csr) 0%float in
  let* st := for_int (random_step env) (cols csr) 0 (mkBench csr v [] [] w) in
  let* c := vec_alloc (rows csr) 0%float in
  let st := mkBench (b_csr st) (b_v_input st) c (b_times_ms st) (b_world st) in
  let* st := call_kernel f st in
  let* t := vec_alloc num_runs 0%float in
  let st := mkBench (b_csr st) (b_v_input st) (b_c_output st) t (b_world st) in
  for_int (timed_step env f) num_runs 0 st.

(** [isspace] in the "C" locale: the space and the characters 9 to 13. *)
Definition isspace (c : ascii) : bool :=
  let n := N_of_ascii c in
  ((n =? 32) || ((9 <=? n) && (n <=? 13)))%N.

Definition digit_of (c : ascii) : option Z :=
  let n := Z.of_N (N_of_ascii c) in
  if decide (48 <= n <= 57) then Some (n - 48) else None.

Fixpoint skip_space (s : string) : string :=
  match s with
  | String c s' => if isspace c then skip_space s' else s
  | EmptyString => s
  end.

Fixpoint read_digits (s : string) (acc : option Z) : option Z :=
  match s with
  | String c s' =>
      match digit_of c with
      | Some d => read_digits s' (Some (10 * default 0 acc + d))
      | None => acc
      end
  | EmptyString => acc
  end.

(** [std::stoi]: leading white space, an optional sign and decimal
    digits, whatever follows them is ignored; [None] stands for the two
    exceptions ([invalid_argument] when there is no digit, [out_of_range]
    when the value is no [int]), which [main] catches alike. *)
Definition stoi (s : string) : option Z :=
  let s := skip_space s in
  let '(neg, s) :=
    match s with
    | String "-" s' => (true, s')
    | String "+" s' => (false, s')
    | _ => (false, s)
    end in
  match read_digits s None with
  | None => None
  | Some n =>
      let n := if neg : bool then - n else n in
      if decide (INT_MIN <= n <= INT_MAX) then Some n else None
  end.

Definition parse_schedule (schedule_str : string) : option omp_sched_t :=
  if decide (schedule_str = "static") then Some omp_sched_static
  else if decide (schedule_str = "dynamic") then Some omp_sched_dynamic
  else if decide (schedule_str = "guided") then Some omp_sched_guided
  else None.

(** The reading loop: [nnz] entries, each turned into a 0-based triplet
    ([t.row = r - 1; t.col = c - 1;] on ints); [None] when the file runs
    out first. *)
Definition read_triplets (nnz : Z) (entries : list (Z * Z * float)) :
    option (list Triplet) :=
  if decide (nnz <= Z.of_nat (length entries)) then
    Some ((fun e => mkTriplet (int_sub e.1.1 1) (int_sub e.1.2 1) e.2) <$>
            take (Z.to_nat nnz) entries)
  else None.

(** How a run of [main] ends, as far as it is followed here. *)
Inductive exit_status : Set :=
| Return (code : Z)   (* [return code;] *)
| Terminate           (* a [std::length_error] is thrown and not caught *)
| Undefined.          (* an access out of bounds is made: the behaviour of
                         the program is undefined from there on and is
                         followed no further (a run of the compiled program
                         may go on, call the kernels and print its line) *)

Definition abnormal (e : fault) : exit_status :=
  match e with
  | LengthError => Terminate
  | OutOfBounds => Undefined
  end.

(** [main]: how the run ends and what the program did, in order.  The
    command line is checked first ([argc], the two numbers, the schedule
    name); then the OpenMP settings are made, the file is read
    ([triplets.reserve(nnz)] throws for a negative [nnz]), the matrix is
    converted, the benchmark is run and the CSV line is printed, with
    [extract_matrix_name(filename)] in front.  For a run that ends with
    [Terminate] or [Undefined] the events are those up to the opening of
    the file. *)
Definition main (sort : list Triplet -> list Triplet) (env : environment)
    (argv : list string) : exit_status * list event :=
  match argv with
  | [_; filename; schedule_str; arg3; arg4] =>
    match stoi arg3, stoi arg4 with
    | Some chunk_size, Some num_threads =>
      match parse_schedule schedule_str with
      | None => (Return 1, [EvStderr MsgInvalidScheduling])
      | Some sched_kind =>
        let icv := mkIcv num_threads sched_kind chunk_size in
        let tr := [EvSetNumThreads num_threads; EvSetSchedule sched_kind chunk_size;
                   EvOpen filename] in
        match file_system env filename with
        | None => (Return 1, tr ++ [EvStderr MsgCannotOpen])
        | Some file =>
          if decide (mm_nnz file < 0) then (Terminate, tr)
          else
            match read_triplets (mm_nnz file) (mm_entries file) with
            | None => (Return 1, tr ++ [EvStderr MsgErrorReading])
            | Some triplets =>
              match coo_to_csr sort triplets (mm_rows file) (mm_cols file) (mm_nnz file) with
              | Err e => (abnormal e, tr)
              | Ok csr =>
                match benchmark env (parallel_kernel env icv) NUM_RUNS csr (mkWorld 0 0 0 tr) with
                | Err e => (abnormal e, tr)
                | Ok st =>
                    let matrix_name :=
                      extract_matrix_name (list_ascii_of_string filename) in
                    (Return 0,
                     trace (b_world st) ++
                     [EvCsv matrix_name schedule_str chunk_size num_threads
                        (b_times_ms st)])
                end
              end
            end
        end
      end
    | _, _ => (Return 1, [EvStderr MsgNotInteger])
    end
  | _ => (Return 1, [EvStderr MsgUsage])
  end.

(** ** The specification *)

#[global] Instance float_inhabited : Inhabited float := populate 0%float.

(** The column indices [col_ind[k]] of row [i] of a CSR matrix, for [k]
    from [row_ptr[i]] up to [row_ptr[i+1]]. *)
Definition row_cols (A : CsrMatrix) (i : Z) : list Z :=
  let row_start := row_ptr A !!! Z.to_nat i in
  let row_end := row_ptr A !!! Z.to_nat (i + 1) in
  take (Z.to_nat (row_end - row_start)) (drop (Z.to_nat row_start) (col_ind A)).

(** The CSR invariants of the data model (spec, section 3), with the
    lengths of the three arrays. *)
Record csr_invariants (A : CsrMatrix) : Prop := {
  inv_row_ptr_length : Z.of_nat (length (row_ptr A)) = rows A + 1;
  inv_col_ind_length : Z.of_nat (length (col_ind A)) = nnz A;
  inv_values_length : Z.of_nat (length (values A)) = nnz A;
  inv_first : row_ptr A !! 0%nat = Some 0;
  inv_last : row_ptr A !! Z.to_nat (rows A) = Some (nnz A);
  inv_monotone : Sorted Z.le (row_ptr A);
  inv_columns : Forall (fun c => 0 <= c < cols A) (col_ind A);
  inv_sorted : Forall (fun i => Sorted Z.le (row_cols A i)) (seqZ 0 (rows A))
}.

#[global] Instance csr_invariants_dec A : Decision (csr_invariants A).
Proof.
  refine (match decide (
    Z.of_nat (length (row_ptr A)) = rows A + 1 /\
    Z.of_nat (length (col_ind A)) = nnz A /\
    Z.of_nat (length (values A)) = nnz A /\
    row_ptr A !! 0%nat = Some 0 /\
    row_ptr A !! Z.to_nat (rows A) = Some (nnz A) /\
    Sorted Z.le (row_ptr A) /\
    Forall (fun c => 0 <= c < cols A) (col_ind A) /\
    Forall (fun i => Sorted Z.le (row_cols A i)) (seqZ 0 (rows A))) with
    | left worth => left _
    | right worth => right _
    end);
  [ abstract (destruct worth as (?&?&?&?&?&?&?&?); by constructor)
  | abstract (intros []; apply worth; done) ].
Defined.

(** The sum of the spec (section 4.2) for row [i]: the products
    [values[k] * v[col_ind[k]]] for [k] from [row_ptr[i]] up to
    [row_ptr[i+1]], added to [0.0] in ascending order of [k]. *)
Definition spec_row_sum (A : CsrMatrix) (v : list float) (i : Z) : float :=
  let row_start := row_ptr A !!! Z.to_nat i in
  let row_end := row_ptr A !!! Z.to_nat (i + 1) in
  foldl (fun sum k =>
           (sum + (values A !!! Z.to_nat k) * (v !!! Z.to_nat (col_ind A !!! Z.to_nat k)))%float)
        0%float (seqZ row_start (row_end - row_start)).

Definition spec_multiply (A : CsrMatrix) (v : list float) : list float :=
  spec_row_sum A v <$> seqZ 0 (rows A).

(** Writing [g i] into slot [i] of [c] for every [i] of [l], in the order
    of [l]. *)
Definition write_rows {T : Type} (g : Z -> T) (l : list Z) (c : list T) : list T :=
  foldl (fun c i => <[Z.to_nat i := g i]> c) c l.

(** The number of triplets in the rows before row [r]. *)
Definition entries_before (triplets : list Triplet) (r : Z) : Z :=
  Z.of_nat (length (filter (fun t => row t < r) triplets)).

(** [current_row] after the scan has gone through the triplets [l]. *)
Definition reached (l : list Triplet) : Z :=
  foldl (fun r t => Z.max r (row t)) 0 l.

(** [row_ptr] once the rows [1 .. m] have been filled in: slot [j]
    holds the number of triplets in the rows before [j]; slot 0 and the
    slots behind [m] still hold the initial 0. *)
Definition row_ptr_upto (ts : list Triplet) (m rows : Z) : list Z :=
  (fun j => if decide (1 <= j <= m) then entries_before ts j else 0) <$> seqZ 0 (rows + 1).

(** The triplets of row [i] in the sorted list [ts]: those from position
    [entries_before ts i] up to [entries_before ts (i + 1)]. *)
Definition row_slice (ts : list Triplet) (i : Z) : list Triplet :=
  take (Z.to_nat (entries_before ts (i + 1) - entries_before ts i))
       (drop (Z.to_nat (entries_before ts i)) ts).

(** The loop state [(current_row, csr)] once the scan has gone through
    the first [k] of the sorted triplets [ts]. *)
Definition scan_state (ts : list Triplet) (rows cols : Z) (k : nat) : Z * CsrMatrix :=
  let seen := take k ts in
  (reached seen,
   mkCsr rows cols (Z.of_nat (length ts)) (row_ptr_upto ts (reached seen) rows)
         ((col <$> seen) ++ replicate (length ts - k) 0)
         ((val <$> seen) ++ replicate (length ts - k) 0%float)).

(** The matrix that the conversion builds from the sorted triplets [ts]. *)
Definition csr_of_sorted (ts : list Triplet) (rows cols : Z) : CsrMatrix :=
  mkCsr rows cols (Z.of_nat (length ts)) (row_ptr_upto ts rows rows)
        (col <$> ts) (val <$> ts).

(** The entries [(col_ind[k], values[k])] of row [i] of a CSR matrix, for
    [k] from [row_ptr[i]] up to [row_ptr[i+1]]. *)
Definition row_entries (A : CsrMatrix) (i : Z) : list (Z * float) :=
  let row_start := row_ptr A !!! Z.to_nat i in
  let row_end := row_ptr A !!! Z.to_nat (i + 1) in
  take (Z.to_nat (row_end - row_start))
       (drop (Z.to_nat row_start) (zip (col_ind A) (values A))).

(** The OpenMP runtime of the environment keeps OpenMP's promise. *)
Definition omp_conforming (env : environment) : Prop :=
  forall icv n k, omp_schedules icv n (omp_runtime env icv n k).

(** The two kernels that the benchmark is run with: the sequential one,
    and the parallel one under a conforming runtime. *)
Inductive spmv_kernel : kernel -> Prop :=
| spmv_kernel_sequential : spmv_kernel sequential_kernel
| spmv_kernel_parallel env icv :
    omp_conforming env -> spmv_kernel (parallel_kernel env icv).

(** A kernel called [n] times in a row on the same variables, as the
    warm-up call and the timed calls of [main] are. *)
Definition repeat_kernel (f : kernel) (n : Z) (st : bench_state) : result bench_state :=
  for_int (fun _ => call_kernel f) n 0 st.

(** The value of the k-th draw from the distribution of [main]. *)
Definition drawn (env : environment) (k : nat) : float :=
  random_draw env (-1000)%float 1000%float k.

(** The range of the entries of the input vector. *)
Definition in_range (x : float) : Prop :=
  PrimFloat.leb (-1000)%float x = true /\ PrimFloat.leb x 1000%float = true.

(** The library's contract for [uniform_real_distribution<double>
    dist(a, b)]: with [a <= b], every value that it returns lies between
    [a] and [b]. *)
Definition dist_conforming (env : environment) : Prop :=
  forall a b k,
    PrimFloat.leb a b = true ->
    PrimFloat.leb a (random_draw env a b k) = true /\
    PrimFloat.leb (random_draw env a b k) b = true.

(** An environment for the examples: one 2 x 2 matrix file, draws that
    alternate between the two bounds of the distribution, a clock that
    advances by a quarter of a second per reading, and the static schedule
    for a team of at most two. *)
Definition example_env : environment :=
  mkEnv (fun _ => Some (mkMtx 2 2 3 [(1, 1, 1%float); (1, 2, 2%float); (2, 2, 3%float)]))
        (fun a b k => if Nat.even k then a else b)
        (fun k => (PrimFloat.of_uint63 (Uint63.of_Z (Z.of_nat k)) / 4)%float)
        (fun icv n _ =>
           static_run (Z.to_nat (Z.max 1 (Z.min 2 (nthreads_var icv))))
                      (Z.max 1 (run_sched_chunk icv)) n).

(** The durations that the timed loop records in its first [n] runs when
    the clock has been read [t0] times before: run [r] reads the clock for
    the [(t0 + 2r)]-th and the [(t0 + 2r + 1)]-th time. *)
Definition durations (env : environment) (t0 n : nat) : list float :=
  (fun r => ((wall_clock env (t0 + 2 * r + 1) - wall_clock env (t0 + 2 * r)) * 1000)%float)
    <$> seq 0 n.

(** The scenarios of the spec (section 8). *)
Definition scenario_triplets : list Triplet :=
  [mkTriplet 0 0 1; mkTriplet 0 1 2; mkTriplet 1 1 3]%float.

Definition scenario_csr : CsrMatrix :=
  mkCsr 2 2 3 [0; 2; 3] [0; 1; 1] [1; 2; 3]%float.

Definition duplicate_triplets : list Triplet :=
  [mkTriplet 0 0 1; mkTriplet 0 0 1]%float.

(** A 3 x 2 example with no triplet in row 1. *)
Definition gap_triplets : list Triplet :=
  [mkTriplet 2 0 4; mkTriplet 0 1 5]%float.

(** The world [w'] has gone on from the world [w]. *)
Definition extends (w w' : world) : Prop :=
  exists tr, trace w' = trace w ++ tr.

(** The number of kernel calls in a trace. *)
Definition is_kernel_call (e : event) : bool :=
  match e with
  | EvKernel => true
  | _ => false
  end.

Definition kernel_calls (tr : list event) : nat :=
  length (filter (fun e => is_kernel_call e) tr).

(** A valid triplet set for a [rows] x [cols] matrix. *)
Definition valid_triplets (triplets : list Triplet) (rows cols : Z) : Prop :=
  0 < rows /\ 0 < cols /\
  Forall (fun t => 0 <= row t < rows /\ 0 <= col t < cols) triplets.

(** A second sorting function that meets the contract of [std::sort]:
    triplets with the same row and column come out in the other order. *)
Definition merge_sort_reversed (l : list Triplet) : list Triplet :=
  merge_sort_triplets (reverse l).

(** Two entries of a file for the same position, with different values. *)
Definition conflicting_triplets : list Triplet :=
  [mkTriplet 0 0 1; mkTriplet 0 0 2]%float.

(** An environment whose files all announce the largest number of
    rows that an [int] holds. *)
Definition huge_env : environment :=
  mkEnv (fun _ => Some (mkMtx INT_MAX 1 0 []))
        (random_draw example_env) (wall_clock example_env) (omp_runtime example_env).

(** * Proofs *)

(** ** The error monad and the loops *)

Lemma for_int_step {S} (body : Z -> S -> result S) hi i s :
  for_int body hi i s =
  if decide (i < hi) then let* s' := body i s in for_int body hi (i + 1) s'
  else Ok s.
Proof.
  simp for_int. destruct (decide (i < hi)); simpl; [|done].
  destruct (body i s); done.
Qed.

Lemma for_int_for_each {S} (body : Z -> S -> result S) hi lo s :
  for_int body hi lo s = for_each body (seqZ lo (hi - lo)) s.
Proof.
  remember (Z.to_nat (hi - lo)) as n eqn:Hn.
  revert lo s Hn. induction n as [|n IH]; intros lo s Hn.
  - rewrite for_int_step, seqZ_nil by lia.
    destruct (decide (lo < hi)); [lia|done].
  - rewrite for_int_step, seqZ_cons by lia.
    destruct (decide (lo < hi)); [|lia]. simpl.
    destruct (body lo s) as [s'|e]; simpl; [|done].
    rewrite IH by lia. do 2 f_equal; lia.
Qed.

Lemma for_each_app {S} (body : Z -> S -> result S) l1 l2 s :
  for_each body (l1 ++ l2) s =
  let* s' := for_each body l1 s in for_each body l2 s'.
Proof.
  revert s. induction l1 as [|i l1 IH]; intros s; simpl; [done|].
  destruct (body i s); simpl; auto.
Qed.

Lemma for_each_foldl {S} (body : Z -> S -> result S) (f : S -> Z -> S) l s :
  (forall k s', k ∈ l -> body k s' = Ok (f s' k)) ->
  for_each body l s = Ok (foldl f s l).
Proof.
  revert s. induction l as [|i l IH]; intros s Hbody; simpl; [done|].
  rewrite Hbody by left. simpl. apply IH.
  intros k s' Hk. apply Hbody. by right.
Qed.

(** ** Integers *)

Ltac int_lia := unfold INT_MIN, INT_MAX in *; lia.

Lemma wrap_id z : INT_MIN <= z <= INT_MAX -> wrap z = z.
Proof.
  unfold wrap, INT_MIN, INT_MAX. intros Hz.
  rewrite Z.mod_small by lia. lia.
Qed.

Lemma int_add_id a b : INT_MIN <= a + b <= INT_MAX -> int_add a b = a + b.
Proof. apply wrap_id. Qed.

Lemma int_sub_id a b : INT_MIN <= a - b <= INT_MAX -> int_sub a b = a - b.
Proof. apply wrap_id. Qed.

(** ** Vectors *)

Lemma vec_read_total {A} `{!Inhabited A} (v : list A) i :
  0 <= i < Z.of_nat (length v) -> vec_read v i = Ok (v !!! Z.to_nat i).
Proof.
  intros Hi. unfold vec_read. destruct (decide (0 <= i)); [|lia].
  destruct (lookup_lt_is_Some_2 v (Z.to_nat i)) as [x Hx]; [lia|].
  by rewrite Hx, (list_lookup_total_correct _ _ _ Hx).
Qed.

Lemma vec_read_Ok {A} (v : list A) i x :
  vec_read v i = Ok x <-> 0 <= i /\ v !! Z.to_nat i = Some x.
Proof.
  unfold vec_read. destruct (decide (0 <= i)) as [Hi|Hi].
  - destruct (v !! Z.to_nat i) as [y|].
    + split; [by intros [= ->]|by intros [_ [= ->]]].
    + split; [done|by intros [_ ?]].
  - split; [done|by intros [? _]].
Qed.

Lemma vec_write_Ok {A} (v : list A) i x :
  0 <= i < Z.of_nat (length v) -> vec_write v i x = Ok (<[Z.to_nat i := x]> v).
Proof. intros Hi. unfold vec_write. by destruct (decide _). Qed.

Lemma vec_write_Err {A} (v : list A) i x :
  ¬ (0 <= i < Z.of_nat (length v)) -> vec_write v i x = Err OutOfBounds.
Proof. intros Hi. unfold vec_write. by destruct (decide _). Qed.

Lemma vec_alloc_Ok {A} n (x : A) :
  0 <= n -> vec_alloc n x = Ok (replicate (Z.to_nat n) x).
Proof. intros Hn. unfold vec_alloc. by destruct (decide _). Qed.

(** ** Writing slots one after the other *)

Lemma write_rows_length {T} (g : Z -> T) l c : length (write_rows g l c) = length c.
Proof.
  revert c. induction l as [|i l IH]; intros c; simpl; [done|].
  unfold write_rows in *. simpl. by rewrite IH, length_insert.
Qed.

Lemma write_rows_lookup {T} (g : Z -> T) l c (j : nat) :
  Forall (fun i => 0 <= i) l -> (j < length c)%nat ->
  write_rows g l c !! j =
  if decide (Z.of_nat j ∈ l) then Some (g (Z.of_nat j)) else c !! j.
Proof.
  intros Hl. revert c.
  induction l as [|i l IH] using rev_ind; intros c Hj.
  { rewrite decide_False by apply not_elem_of_nil. done. }
  rewrite Forall_app, Forall_singleton in Hl. destruct Hl as [Hl Hi].
  unfold write_rows in *. rewrite foldl_app. simpl.
  destruct (decide (Z.to_nat i = j)) as [<-|Hne].
  - rewrite list_lookup_insert_eq.
    + rewrite Z2Nat.id by done.
      rewrite decide_True; [done|]. apply elem_of_app. right. by left.
    + fold (write_rows g l c). by rewrite write_rows_length.
  - rewrite list_lookup_insert_ne by done. rewrite IH by done.
    destruct (decide (Z.of_nat j ∈ l)) as [Hin|Hin].
    + rewrite decide_True; [done|]. apply elem_of_app. by left.
    + case_decide as Hin'; [|done].
      apply elem_of_app in Hin' as [?|Hin']; [done|].
      apply list_elem_of_singleton in Hin'. lia.
Qed.

(** ** The kernels *)

Section row_pointers.
Variable A : CsrMatrix.
Hypothesis A_inv : csr_invariants A.

Lemma row_ptr_monotone (i j : nat) a b :
  (i <= j)%nat -> row_ptr A !! i = Some a -> row_ptr A !! j = Some b -> a <= b.
Proof.
  intros Hij Ha Hb. destruct (decide (i = j)) as [->|Hne]; [naive_solver lia|].
  pose proof (inv_monotone A A_inv) as Hs.
  apply Sorted_StronglySorted in Hs; [|apply _].
  rewrite <-(take_drop i (row_ptr A)) in Hs.
  apply StronglySorted_app_1_r in Hs.
  rewrite (drop_S _ _ _ Ha) in Hs.
  apply StronglySorted_cons in Hs as [Hall _].
  rewrite Forall_lookup in Hall. apply (Hall (j - S i)%nat).
  rewrite lookup_drop. by replace (S i + (j - S i))%nat with j by lia.
Qed.

Lemma row_ptr_bounds (i : nat) a :
  row_ptr A !! i = Some a -> 0 <= a <= nnz A.
Proof.
  intros Ha. pose proof (lookup_lt_Some _ _ _ Ha) as Hlt.
  pose proof (inv_row_ptr_length A A_inv).
  split.
  - apply (row_ptr_monotone 0 i); [lia| |done]. apply A_inv.
  - apply (row_ptr_monotone i (Z.to_nat (rows A))); [lia|done|]. apply A_inv.
Qed.

Lemma row_ptr_total (i : nat) :
  Z.of_nat i <= rows A -> row_ptr A !! i = Some (row_ptr A !!! i).
Proof.
  intros Hi. apply list_lookup_lookup_total_lt.
  pose proof (inv_row_ptr_length A A_inv). lia.
Qed.

End row_pointers.

Section kernels.
Variable A : CsrMatrix.
Variable v : list float.
Hypothesis A_inv : csr_invariants A.
Hypothesis v_length : Z.of_nat (length v) = cols A.

(** The inner loop of the code computes the sum of the spec. *)
Lemma row_sum_spec i :
  0 <= i < rows A -> row_sum A v i = Ok (spec_row_sum A v i).
Proof.
  intros Hi. pose proof (inv_row_ptr_length A A_inv) as Hlen.
  unfold row_sum, spec_row_sum.
  rewrite !vec_read_total by lia. simpl.
  set (a := row_ptr A !!! Z.to_nat i).
  set (b := row_ptr A !!! Z.to_nat (i + 1)).
  assert (0 <= a <= nnz A) as Ha.
  { apply (row_ptr_bounds A A_inv (Z.to_nat i)), row_ptr_total; [done|lia]. }
  assert (0 <= b <= nnz A) as Hb.
  { apply (row_ptr_bounds A A_inv (Z.to_nat (i + 1))), row_ptr_total; [done|lia]. }
  rewrite for_int_for_each. apply for_each_foldl.
  intros k s Hk. apply elem_of_seqZ in Hk.
  pose proof (inv_col_ind_length A A_inv). pose proof (inv_values_length A A_inv).
  rewrite !vec_read_total by lia. simpl.
  assert (0 <= col_ind A !!! Z.to_nat k < cols A) as Hc.
  { pose proof (inv_columns A A_inv) as Hall.
    rewrite Forall_lookup in Hall. apply (Hall (Z.to_nat k)).
    apply list_lookup_lookup_total_lt. lia. }
  rewrite vec_read_total by lia. done.
Qed.

(** Any sequence of row iterations succeeds and writes the spec's sums. *)
Lemma for_each_spmv_row l c :
  Forall (fun i => 0 <= i < rows A) l -> Z.of_nat (length c) = rows A ->
  for_each (spmv_row A v) l c = Ok (write_rows (spec_row_sum A v) l c).
Proof.
  revert c. induction l as [|i l IH]; intros c Hl Hc; simpl; [done|].
  apply Forall_cons in Hl as [Hi Hl].
  unfold spmv_row at 1. rewrite row_sum_spec by done. simpl.
  rewrite vec_write_Ok by lia. simpl.
  rewrite IH; [done..|]. by rewrite length_insert.
Qed.

(** Once every row has been written, in whatever order, the output is
    the vector of the spec. *)
Lemma write_rows_all l c :
  l ≡ₚ seqZ 0 (rows A) -> Z.of_nat (length c) = rows A ->
  write_rows (spec_row_sum A v) l c = spec_multiply A v.
Proof.
  intros Hl Hc. apply list_eq. intros j. unfold spec_multiply.
  destruct (decide (j < length c)%nat) as [Hj|Hj].
  - rewrite write_rows_lookup; [|by rewrite Hl; apply Forall_seqZ; lia|done].
    rewrite list_lookup_fmap, lookup_seqZ_lt by lia. simpl.
    case_decide as Hn; [done|].
    destruct Hn. rewrite Hl. apply elem_of_seqZ. lia.
  - rewrite !lookup_ge_None_2; [done|..].
    + rewrite length_fmap, length_seqZ. lia.
    + rewrite write_rows_length. lia.
Qed.

Lemma spmv_csr_sequential_spec c :
  Z.of_nat (length c) = rows A ->
  spmv_csr_sequential A v c = Ok (spec_multiply A v).
Proof.
  intros Hc. unfold spmv_csr_sequential.
  rewrite for_int_for_each, Z.sub_0_r.
  rewrite for_each_spmv_row; [|apply Forall_seqZ; lia|done].
  by rewrite write_rows_all.
Qed.

Lemma spmv_csr_parallel_spec run c :
  run.*2 ≡ₚ seqZ 0 (rows A) -> Z.of_nat (length c) = rows A ->
  spmv_csr_parallel run A v c = Ok (spec_multiply A v).
Proof.
  intros Hrun Hc. unfold spmv_csr_parallel.
  rewrite for_each_spmv_row; [|by rewrite Hrun; apply Forall_seqZ; lia|done].
  by rewrite write_rows_all.
Qed.
End kernels.

(** ** The order of the triplets *)

Lemma not_after_spec a b :
  not_after compareTriplets a b <->
  row a < row b \/ (row a = row b /\ col a <= col b).
Proof.
  unfold not_after, compareTriplets.
  destruct (decide (row b < row a)); [split; [done|lia]|].
  destruct (decide (row b = row a)).
  - rewrite bool_decide_eq_false. lia.
  - split; [lia|done].
Qed.

Lemma not_after_row a b : not_after compareTriplets a b -> row a <= row b.
Proof. rewrite not_after_spec. lia. Qed.

#[global] Instance not_after_trans : Transitive (not_after compareTriplets).
Proof. intros a b c. rewrite !not_after_spec. lia. Qed.

#[global] Instance not_after_total : Total (not_after compareTriplets).
Proof. intros a b. rewrite !not_after_spec. lia. Qed.

Lemma merge_sort_is_std_sort : is_std_sort compareTriplets merge_sort_triplets.
Proof.
  intros l. split.
  - apply merge_sort_Permutation.
  - apply StronglySorted_merge_sort; apply _.
Qed.

(** Two sorting functions that meet the contract agree on every list in
    which triplets with the same row and column are equal. *)
Lemma std_sort_unique sort1 sort2 l :
  is_std_sort compareTriplets sort1 -> is_std_sort compareTriplets sort2 ->
  (forall a b, a ∈ l -> b ∈ l -> row a = row b -> col a = col b -> a = b) ->
  sort1 l = sort2 l.
Proof.
  intros H1 H2 Hl. destruct (H1 l) as [Hp1 Hs1], (H2 l) as [Hp2 Hs2].
  apply (StronglySorted_unique_strong (not_after compareTriplets));
    [|done|done|by rewrite Hp1, Hp2].
  intros a b Ha Hb. rewrite !not_after_spec. intros Hab Hba.
  apply Hl; [by rewrite <-Hp1|by rewrite <-Hp2|lia..].
Qed.

(** ** Counting the triplets of the rows before a row *)

Lemma entries_before_perm l1 l2 r :
  l1 ≡ₚ l2 -> entries_before l1 r = entries_before l2 r.
Proof. intros Hp. unfold entries_before. by rewrite Hp. Qed.

Lemma entries_before_app l1 l2 r :
  entries_before (l1 ++ l2) r = entries_before l1 r + entries_before l2 r.
Proof. unfold entries_before. rewrite filter_app, length_app. lia. Qed.

Lemma entries_before_all l r :
  Forall (fun t => row t < r) l -> entries_before l r = Z.of_nat (length l).
Proof.
  intros Hl. unfold entries_before. f_equal. f_equal.
  induction Hl as [|t l Ht Hl IH]; [done|].
  rewrite filter_cons_True by done. by f_equal.
Qed.

Lemma entries_before_none l r :
  Forall (fun t => r <= row t) l -> entries_before l r = 0.
Proof.
  intros Hl. unfold entries_before.
  induction Hl as [|t l Ht Hl IH]; [done|].
  rewrite filter_cons_False by lia. done.
Qed.

Lemma entries_before_bounds l r :
  0 <= entries_before l r <= Z.of_nat (length l).
Proof.
  unfold entries_before. pose proof (length_filter (fun t => row t < r) l). lia.
Qed.

Lemma entries_before_mono l r1 r2 :
  r1 <= r2 -> entries_before l r1 <= entries_before l r2.
Proof.
  intros Hr. unfold entries_before.
  induction l as [|t l IH]; [done|].
  destruct (decide (row t < r1)).
  - rewrite !filter_cons_True by lia. simpl. lia.
  - rewrite (filter_cons_False (fun t => row t < r1)) by done.
    destruct (decide (row t < r2)).
    + rewrite filter_cons_True by done. simpl. lia.
    + rewrite filter_cons_False by done. done.
Qed.

(** In a sorted list, the triplets of the rows before [r] come first. *)
Lemma sorted_split ts r :
  StronglySorted (not_after compareTriplets) ts ->
  Forall (fun t => row t < r) (take (Z.to_nat (entries_before ts r)) ts) /\
  Forall (fun t => r <= row t) (drop (Z.to_nat (entries_before ts r)) ts).
Proof.
  induction 1 as [|t ts Hs IH Ht]; [done|].
  unfold entries_before in *. rewrite Nat2Z.id in *.
  destruct (decide (row t < r)).
  - rewrite filter_cons_True by done. simpl. destruct IH. split; [|done].
    by constructor.
  - rewrite filter_cons_False by done.
    assert (Forall (fun t' => r <= row t') ts) as Hall.
    { eapply Forall_impl; [exact Ht|]. intros t' Ht'. simpl in Ht'.
      apply not_after_row in Ht'. lia. }
    pose proof (entries_before_none ts r Hall) as H0.
    unfold entries_before in H0.
    replace (length (filter (fun t0 => row t0 < r) ts)) with 0%nat by lia.
    simpl. split; [done|]. constructor; [lia|done].
Qed.

(** ** [current_row] during the scan *)

Lemma reached_snoc l t : reached (l ++ [t]) = Z.max (reached l) (row t).
Proof. unfold reached. by rewrite foldl_app. Qed.

Lemma reached_nonneg l : 0 <= reached l.
Proof.
  induction l as [|t l IH] using rev_ind; [done|]. rewrite reached_snoc. lia.
Qed.

Lemma reached_upper l : Forall (fun t => row t <= reached l) l.
Proof.
  induction l as [|t l IH] using rev_ind; [done|].
  rewrite reached_snoc. apply Forall_app. split.
  - eapply Forall_impl; [exact IH|]. simpl. lia.
  - apply Forall_singleton. lia.
Qed.

Lemma reached_bound l m :
  0 <= m -> Forall (fun t => row t <= m) l -> reached l <= m.
Proof.
  intros Hm. induction l as [|t l IH] using rev_ind; intros Hl; [done|].
  rewrite Forall_app, Forall_singleton in Hl. destruct Hl.
  rewrite reached_snoc. specialize (IH ltac:(done)). lia.
Qed.

(** ** The loops of the conversion *)

Lemma set_row_ptr_id csr : set_row_ptr csr (row_ptr csr) = csr.
Proof. by destruct csr. Qed.

Lemma skip_rows_step i r current_row csr :
  skip_rows i r current_row csr =
  if decide (current_row < r) then
    let* rp := vec_write (row_ptr csr) (current_row + 1) i in
    skip_rows i r (current_row + 1) (set_row_ptr csr rp)
  else Ok (current_row, csr).
Proof.
  simp skip_rows. destruct (decide (current_row < r)); simpl; [|done].
  destruct (vec_write _ _ _); done.
Qed.

(** The while loop ends with [current_row] at [r] (or where it was, when
    it was there already) and has written [i] into the slots in between. *)
Lemma skip_rows_Ok i r current_row csr :
  0 <= current_row ->
  (current_row < r -> r < Z.of_nat (length (row_ptr csr))) ->
  skip_rows i r current_row csr =
  Ok (Z.max current_row r,
      set_row_ptr csr (write_rows (fun _ => i)
                         (seqZ (current_row + 1) (r - current_row)) (row_ptr csr))).
Proof.
  remember (Z.to_nat (r - current_row)) as n eqn:Hn.
  revert current_row csr Hn.
  induction n as [|n IH]; intros cur csr Hn Hcur Hr; rewrite skip_rows_step.
  - rewrite decide_False by lia. rewrite seqZ_nil by lia.
    unfold write_rows. simpl. rewrite set_row_ptr_id. do 2 f_equal. lia.
  - rewrite decide_True by lia. rewrite vec_write_Ok by lia. simpl.
    rewrite IH; [|lia|lia|simpl; rewrite length_insert; lia].
    rewrite (seqZ_cons (cur + 1)) by lia. unfold write_rows. simpl.
    do 2 f_equal; [lia|]. unfold set_row_ptr. simpl. do 3 f_equal; lia.
Qed.

(** A row index beyond [row_ptr] makes the while loop write outside it. *)
Lemma skip_rows_Err i r current_row csr :
  0 <= current_row -> current_row < r -> Z.of_nat (length (row_ptr csr)) <= r ->
  skip_rows i r current_row csr = Err OutOfBounds.
Proof.
  remember (Z.to_nat (r - current_row)) as n eqn:Hn.
  revert current_row csr Hn.
  induction n as [|n IH]; intros cur csr Hn Hcur Hlt Hr; [lia|].
  rewrite skip_rows_step, decide_True by lia.
  destruct (decide (cur + 1 < Z.of_nat (length (row_ptr csr)))).
  - rewrite vec_write_Ok by lia. simpl.
    apply IH; simpl; rewrite ?length_insert; lia.
  - by rewrite vec_write_Err by lia.
Qed.

Lemma for_each_fill_step l csr :
  Forall (fun i => 0 <= i < Z.of_nat (length (row_ptr csr))) l ->
  for_each fill_step l csr =
  Ok (set_row_ptr csr (write_rows (fun _ => nnz csr) l (row_ptr csr))).
Proof.
  revert csr. induction l as [|i l IH]; intros csr Hl; simpl.
  - by rewrite set_row_ptr_id.
  - apply Forall_cons in Hl as [Hi Hl]. unfold fill_step at 1.
    rewrite vec_write_Ok by done. simpl. rewrite IH; [done|].
    simpl. by rewrite length_insert.
Qed.

(** ** [row_ptr] during the conversion *)

Lemma row_ptr_upto_length ts m rows :
  length (row_ptr_upto ts m rows) = Z.to_nat (rows + 1).
Proof. unfold row_ptr_upto. by rewrite length_fmap, length_seqZ. Qed.

Lemma row_ptr_upto_lookup ts m rows (j : nat) :
  Z.of_nat j <= rows ->
  row_ptr_upto ts m rows !! j =
  Some (if decide (1 <= Z.of_nat j <= m) then entries_before ts (Z.of_nat j) else 0).
Proof.
  intros Hj. unfold row_ptr_upto.
  rewrite list_lookup_fmap, lookup_seqZ_lt by lia. done.
Qed.

Lemma row_ptr_upto_zero ts rows :
  row_ptr_upto ts 0 rows = replicate (Z.to_nat (rows + 1)) 0.
Proof.
  apply list_eq. intros j.
  destruct (decide (Z.of_nat j <= rows)).
  - rewrite row_ptr_upto_lookup by done. rewrite decide_False by lia.
    symmetry. apply lookup_replicate. split; [done|lia].
  - rewrite !lookup_ge_None_2; [done|..].
    + rewrite length_replicate. lia.
    + rewrite row_ptr_upto_length. lia.
Qed.

Lemma row_ptr_upto_ge ts m rows :
  rows <= m -> row_ptr_upto ts m rows = row_ptr_upto ts rows rows.
Proof.
  intros Hm. apply list_eq. intros j.
  destruct (decide (Z.of_nat j <= rows)).
  - rewrite !row_ptr_upto_lookup by done. f_equal.
    destruct (decide (1 <= Z.of_nat j)).
    + by rewrite !decide_True by lia.
    + by rewrite !decide_False by lia.
  - rewrite !lookup_ge_None_2; [done|..]; rewrite row_ptr_upto_length; lia.
Qed.

(** Filling the slots behind [m] up to [r] with the right count moves the
    filled part of [row_ptr] on to [r]. *)
Lemma row_ptr_upto_write ts m r x rows :
  0 <= m ->
  (forall j, m < j <= r -> j <= rows /\ entries_before ts j = x) ->
  write_rows (fun _ => x) (seqZ (m + 1) (r - m)) (row_ptr_upto ts m rows) =
  row_ptr_upto ts (Z.max m r) rows.
Proof.
  intros Hm Hx. apply list_eq. intros j.
  destruct (decide (Z.of_nat j <= rows)) as [Hj|Hj].
  - rewrite write_rows_lookup;
      [|apply Forall_seqZ; lia|rewrite row_ptr_upto_length; lia].
    rewrite !row_ptr_upto_lookup by done.
    destruct (decide (m < Z.of_nat j <= r)) as [Hin|Hout].
    + rewrite decide_True by (apply elem_of_seqZ; lia).
      rewrite decide_True by lia. f_equal. symmetry. by apply Hx.
    + rewrite decide_False by (rewrite elem_of_seqZ; lia). f_equal.
      destruct (decide (1 <= Z.of_nat j <= m)).
      * by rewrite decide_True by lia.
      * by rewrite decide_False by lia.
  - rewrite !lookup_ge_None_2; [done|..].
    + rewrite row_ptr_upto_length. lia.
    + rewrite write_rows_length, row_ptr_upto_length. lia.
Qed.

(** ** The scan over the sorted triplets *)

Lemma insert_snoc_replicate {T} (l : list T) (x d : T) (m : nat) :
  <[length l := x]> (l ++ replicate (S m) d) = (l ++ [x]) ++ replicate m d.
Proof.
  rewrite insert_app_r_alt by lia. rewrite Nat.sub_diag. simpl.
  by rewrite <-app_assoc.
Qed.

Lemma insert_snoc_replicate_at {T} (l : list T) (x d : T) (m k : nat) :
  length l = k ->
  <[k := x]> (l ++ replicate (S m) d) = (l ++ [x]) ++ replicate m d.
Proof. intros <-. apply insert_snoc_replicate. Qed.

Section scan.
Variable ts : list Triplet.
Variables rows cols : Z.
Hypothesis ts_sorted : StronglySorted (not_after compareTriplets) ts.
Hypothesis rows_ok : -1 <= rows.

Lemma later_rows (k : nat) t :
  ts !! k = Some t -> Forall (fun t' => row t <= row t') (drop k ts).
Proof.
  intros Hk. rewrite <-(take_drop k ts) in ts_sorted.
  apply StronglySorted_app_1_r in ts_sorted.
  rewrite (drop_S _ _ _ Hk) in *.
  apply StronglySorted_cons in ts_sorted as [Hall _].
  constructor; [lia|].
  eapply Forall_impl; [exact Hall|]. intros t'. apply not_after_row.
Qed.

Lemma scan_step_state (k : nat) t :
  ts !! k = Some t -> row t <= Z.max 0 rows ->
  scan_step ts (Z.of_nat k) (scan_state ts rows cols k) =
  Ok (scan_state ts rows cols (S k)).
Proof.
  intros Ht Hrow. pose proof (lookup_lt_Some _ _ _ Ht) as Hk.
  unfold scan_step, scan_state.
  assert (vec_read ts (Z.of_nat k) = Ok t) as ->.
  { apply vec_read_Ok. rewrite Nat2Z.id. split; [lia|done]. }
  simpl.
  assert (length (take k ts) = k) as Hlen by (rewrite length_take; lia).
  rewrite vec_write_Ok
    by (rewrite length_app, length_fmap, length_replicate; lia).
  simpl.
  rewrite vec_write_Ok
    by (rewrite length_app, length_fmap, length_replicate; lia).
  simpl.
  pose proof (reached_nonneg (take k ts)) as Hnn.
  rewrite skip_rows_Ok; [|done|simpl; rewrite row_ptr_upto_length; lia].
  rewrite (take_S_r _ _ _ Ht), reached_snoc. do 2 f_equal.
  unfold set_row_ptr. simpl. rewrite Nat2Z.id.
  replace (length ts - k)%nat with (S (length ts - S k)) by lia.
  f_equal.
  - apply row_ptr_upto_write; [done|].
    intros j Hj. split; [lia|].
    rewrite <-(take_drop k ts) at 1. rewrite entries_before_app.
    rewrite entries_before_all, entries_before_none; [lia|..].
    + eapply Forall_impl; [by apply later_rows|]. simpl. lia.
    + eapply Forall_impl; [apply reached_upper|]. simpl. lia.
  - rewrite fmap_app. simpl.
    rewrite <-(insert_snoc_replicate (col <$> take k ts)).
    by rewrite length_fmap, Hlen.
  - rewrite fmap_app. simpl.
    rewrite <-(insert_snoc_replicate (val <$> take k ts)).
    by rewrite length_fmap, Hlen.
Qed.

Lemma scan_prefix (k : nat) :
  (k <= length ts)%nat ->
  Forall (fun t => row t <= Z.max 0 rows) (take k ts) ->
  for_each (scan_step ts) (seqZ 0 (Z.of_nat k)) (scan_state ts rows cols 0) =
  Ok (scan_state ts rows cols k).
Proof.
  induction k as [|k IH]; intros Hk Hrows; [done|].
  destruct (lookup_lt_is_Some_2 ts k) as [t Ht]; [lia|].
  rewrite (take_S_r _ _ _ Ht), Forall_app, Forall_singleton in Hrows.
  destruct Hrows as [Hrows Hrow].
  rewrite seqZ_S, for_each_app, IH by (done || lia).
  cbn [bind for_each]. rewrite Z.add_0_l.
  by rewrite (scan_step_state k t).
Qed.

(** A triplet in a row behind [max 0 rows] makes the scan write outside
    [row_ptr]. *)
Lemma scan_step_fault (k : nat) t :
  ts !! k = Some t -> Z.max 0 rows < row t ->
  Forall (fun t => row t <= Z.max 0 rows) (take k ts) ->
  scan_step ts (Z.of_nat k) (scan_state ts rows cols k) = Err OutOfBounds.
Proof.
  intros Ht Hrow Hrows. pose proof (lookup_lt_Some _ _ _ Ht) as Hk.
  unfold scan_step, scan_state.
  assert (vec_read ts (Z.of_nat k) = Ok t) as ->.
  { apply vec_read_Ok. rewrite Nat2Z.id. split; [lia|done]. }
  simpl.
  assert (length (take k ts) = k) as Hlen by (rewrite length_take; lia).
  rewrite vec_write_Ok
    by (rewrite length_app, length_fmap, length_replicate; lia).
  simpl.
  rewrite vec_write_Ok
    by (rewrite length_app, length_fmap, length_replicate; lia).
  simpl.
  pose proof (reached_nonneg (take k ts)).
  pose proof (reached_bound (take k ts) (Z.max 0 rows) ltac:(lia) Hrows).
  apply skip_rows_Err; [done|lia|].
  simpl. rewrite row_ptr_upto_length. lia.
Qed.

Lemma scan_fault :
  Exists (fun t => Z.max 0 rows < row t) ts ->
  for_each (scan_step ts) (seqZ 0 (Z.of_nat (length ts))) (scan_state ts rows cols 0) =
  Err OutOfBounds.
Proof.
  intros Hex.
  destruct (sorted_split ts (Z.max 0 rows + 1) ts_sorted) as [Hlo Hhi].
  pose proof (entries_before_bounds ts (Z.max 0 rows + 1)) as Hb.
  set (k := Z.to_nat (entries_before ts (Z.max 0 rows + 1))) in *.
  assert (k < length ts)%nat as Hk.
  { destruct (decide (k < length ts)%nat); [done|].
    rewrite firstn_all2 in Hlo by lia.
    apply Exists_exists in Hex as (t & Hin & Ht).
    rewrite Forall_forall in Hlo. specialize (Hlo t Hin). simpl in Hlo. lia. }
  destruct (lookup_lt_is_Some_2 ts k Hk) as [t Ht].
  assert (Z.max 0 rows < row t) as Hrow.
  { rewrite Forall_lookup in Hhi. specialize (Hhi 0%nat t).
    rewrite lookup_drop, Nat.add_0_r in Hhi. specialize (Hhi Ht). simpl in Hhi. lia. }
  assert (Forall (fun t => row t <= Z.max 0 rows) (take k ts)) as Hrows.
  { eapply Forall_impl; [exact Hlo|]. simpl. lia. }
  replace (Z.of_nat (length ts)) with (Z.of_nat k + Z.of_nat (length ts - k)) by lia.
  rewrite seqZ_app by lia. rewrite for_each_app, scan_prefix by (done || lia).
  cbn [bind]. rewrite Z.add_0_l.
  rewrite seqZ_cons by lia. cbn [for_each].
  by rewrite (scan_step_fault k t).
Qed.

(** The conversion without the sort, on triplets that are sorted. *)
Lemma scan_and_fill :
  rows < INT_MAX ->
  Forall (fun t => row t <= Z.max 0 rows) ts ->
  (let* rp := vec_alloc (int_add rows 1) 0 in
   let* ci := vec_alloc (Z.of_nat (length ts)) 0 in
   let* vs := vec_alloc (Z.of_nat (length ts)) 0%float in
   let csr := mkCsr rows cols (Z.of_nat (length ts)) rp ci vs in
   let* (current_row, csr) :=
     for_int (scan_step ts) (Z.of_nat (length ts)) 0 (0, csr) in
   for_int fill_step (rows + 1) (int_add current_row 1) csr) =
  Ok (csr_of_sorted ts rows cols).
Proof.
  intros rows_int ts_rows.
  rewrite int_add_id by (unfold INT_MIN, INT_MAX in *; lia).
  rewrite !vec_alloc_Ok by lia. simpl.
  rewrite for_int_for_each, Z.sub_0_r, !Nat2Z.id.
  pose proof (scan_prefix (length ts) ltac:(lia)) as Hscan.
  rewrite firstn_all in Hscan. specialize (Hscan ts_rows).
  unfold scan_state at 1 in Hscan.
  rewrite take_0, Nat.sub_0_r in Hscan. unfold reached at 1 2 in Hscan.
  simpl in Hscan. rewrite row_ptr_upto_zero in Hscan. rewrite Hscan.
  unfold scan_state. rewrite firstn_all, Nat.sub_diag. simpl.
  rewrite !app_nil_r.
  pose proof (reached_nonneg ts) as Hnn.
  assert (reached ts <= Z.max 0 rows) as Hle by (apply reached_bound; [lia|done]).
  rewrite int_add_id by (unfold INT_MIN, INT_MAX in *; lia).
  rewrite for_int_for_each.
  replace (rows + 1 - (reached ts + 1)) with (rows - reached ts) by lia.
  rewrite for_each_fill_step
    by (simpl; rewrite row_ptr_upto_length; apply Forall_seqZ; lia).
  unfold set_row_ptr, csr_of_sorted. simpl. do 2 f_equal.
  rewrite row_ptr_upto_write, row_ptr_upto_ge; [done|lia|done|].
  intros j Hj. split; [lia|]. apply entries_before_all.
  eapply Forall_impl; [apply reached_upper|]. simpl. lia.
Qed.

Lemma scan_and_fill_fault :
  rows < INT_MAX ->
  Exists (fun t => Z.max 0 rows < row t) ts ->
  (let* rp := vec_alloc (int_add rows 1) 0 in
   let* ci := vec_alloc (Z.of_nat (length ts)) 0 in
   let* vs := vec_alloc (Z.of_nat (length ts)) 0%float in
   let csr := mkCsr rows cols (Z.of_nat (length ts)) rp ci vs in
   let* (current_row, csr) :=
     for_int (scan_step ts) (Z.of_nat (length ts)) 0 (0, csr) in
   for_int fill_step (rows + 1) (int_add current_row 1) csr) =
  Err OutOfBounds.
Proof.
  intros rows_int Hex.
  rewrite int_add_id by (unfold INT_MIN, INT_MAX in *; lia).
  rewrite !vec_alloc_Ok by lia. simpl.
  rewrite for_int_for_each, Z.sub_0_r, !Nat2Z.id.
  pose proof (scan_fault Hex) as Hscan.
  unfold scan_state at 1 in Hscan.
  rewrite take_0, Nat.sub_0_r in Hscan. unfold reached at 1 2 in Hscan.
  simpl in Hscan. rewrite row_ptr_upto_zero in Hscan. by rewrite Hscan.
Qed.
End scan.

(** The conversion ends without a fault and returns [csr_of_sorted] for
    every input with [-1 <= rows < INT_MAX] whose triplets lie in no row
    behind [max 0 rows]. *)
Lemma build_closed_form sort triplets rows cols :
  is_std_sort compareTriplets sort ->
  -1 <= rows < INT_MAX ->
  Forall (fun t => row t <= Z.max 0 rows) triplets ->
  build sort triplets rows cols = Ok (csr_of_sorted (sort triplets) rows cols).
Proof.
  intros Hsort [Hrows Hint] Hts. destruct (Hsort triplets) as [Hperm Hsorted].
  unfold build, coo_to_csr.
  rewrite <-(Permutation_length Hperm).
  apply scan_and_fill; [done..|]. by rewrite Hperm.
Qed.

(** The ways in which the conversion goes wrong. *)
Lemma build_out_of_bounds sort triplets rows cols :
  is_std_sort compareTriplets sort ->
  -1 <= rows < INT_MAX ->
  Exists (fun t => Z.max 0 rows < row t) triplets ->
  build sort triplets rows cols = Err OutOfBounds.
Proof.
  intros Hsort [Hrows Hint] Hts. destruct (Hsort triplets) as [Hperm Hsorted].
  unfold build, coo_to_csr.
  rewrite <-(Permutation_length Hperm).
  apply scan_and_fill_fault; [done..|]. by rewrite Hperm.
Qed.

Lemma build_length_error sort triplets rows cols :
  INT_MIN <= rows < -1 -> build sort triplets rows cols = Err LengthError.
Proof.
  intros Hrows. unfold build, coo_to_csr.
  rewrite int_add_id by (unfold INT_MIN, INT_MAX in *; lia).
  unfold vec_alloc at 1. by rewrite decide_False by lia.
Qed.

(** [rows + 1] overflows for the largest [int]. *)
Lemma build_length_error_max sort triplets cols :
  build sort triplets INT_MAX cols = Err LengthError.
Proof. reflexivity. Qed.

(** ** Sorted lists *)

Lemma Sorted_lookup_le (l : list Z) :
  (forall (i : nat) a b, l !! i = Some a -> l !! S i = Some b -> a <= b) ->
  Sorted Z.le l.
Proof.
  induction l as [|x l IH]; intros Hl; [constructor|].
  constructor.
  - apply IH. intros i a b. apply (Hl (S i)).
  - destruct l as [|y l]; constructor. by apply (Hl 0%nat).
Qed.

Lemma StronglySorted_fmap_on {T} (f : T -> Z) (P : T -> Prop) (R : relation T) l :
  (forall x y, P x -> P y -> R x y -> f x <= f y) ->
  StronglySorted R l -> Forall P l -> StronglySorted Z.le (f <$> l).
Proof.
  intros Hf. induction 1 as [|x l Hs IH Hx]; intros Hl; [constructor|].
  apply Forall_cons in Hl as [HPx Hl]. simpl. constructor; [by apply IH|].
  apply Forall_fmap, Forall_forall. intros y Hy.
  rewrite Forall_forall in Hx, Hl. apply Hf; auto.
Qed.

Lemma zip_col_val (l : list Triplet) :
  zip (col <$> l) (val <$> l) = (fun t => (col t, val t)) <$> l.
Proof. induction l as [|t l IH]; simpl; [done|]. by f_equal. Qed.

(** ** The invariants of the matrix that the conversion builds *)

Section built.
Variable ts : list Triplet.
Variables rows cols : Z.
Hypothesis ts_sorted : StronglySorted (not_after compareTriplets) ts.
Hypothesis ts_valid : valid_triplets ts rows cols.

Lemma valid_rows_nonneg : entries_before ts 0 = 0.
Proof.
  apply entries_before_none. destruct ts_valid as (_ & _ & Hall).
  eapply Forall_impl; [exact Hall|]. simpl. lia.
Qed.

Lemma valid_rows_below : entries_before ts rows = Z.of_nat (length ts).
Proof.
  apply entries_before_all. destruct ts_valid as (_ & _ & Hall).
  eapply Forall_impl; [exact Hall|]. simpl. lia.
Qed.

(** Slot [j] of [row_ptr] is the number of triplets before row [j]. *)
Lemma built_row_ptr (j : nat) :
  Z.of_nat j <= rows ->
  row_ptr (csr_of_sorted ts rows cols) !! j = Some (entries_before ts (Z.of_nat j)).
Proof.
  intros Hj. simpl. rewrite row_ptr_upto_lookup by done. f_equal.
  destruct (decide (1 <= Z.of_nat j <= rows)); [done|].
  replace (Z.of_nat j) with 0 by lia. by rewrite valid_rows_nonneg.
Qed.

Lemma built_row_ptr_Some (j : nat) a :
  row_ptr (csr_of_sorted ts rows cols) !! j = Some a ->
  Z.of_nat j <= rows /\ a = entries_before ts (Z.of_nat j).
Proof.
  intros Ha. pose proof (lookup_lt_Some _ _ _ Ha) as Hlt.
  simpl in Hlt. rewrite row_ptr_upto_length in Hlt.
  assert (Z.of_nat j <= rows) as Hj by lia.
  rewrite built_row_ptr in Ha by done. naive_solver.
Qed.

(** The triplet at position [k] lies in the row [r] whose slice
    [entries_before r .. entries_before (r+1)] holds [k]. *)
Lemma sorted_row_of (k : nat) t r :
  ts !! k = Some t ->
  entries_before ts r <= Z.of_nat k < entries_before ts (r + 1) ->
  row t = r.
Proof.
  intros Ht [Hlo Hhi].
  destruct (sorted_split ts r ts_sorted) as [_ Hge].
  destruct (sorted_split ts (r + 1) ts_sorted) as [Hlt _].
  rewrite Forall_lookup in Hge, Hlt.
  pose proof (entries_before_bounds ts r).
  specialize (Hge (k - Z.to_nat (entries_before ts r))%nat t).
  specialize (Hlt k t).
  rewrite lookup_drop in Hge. rewrite lookup_take_lt in Hlt by lia.
  replace (Z.to_nat (entries_before ts r) + (k - Z.to_nat (entries_before ts r)))%nat
    with k in Hge by lia.
  specialize (Hge Ht). specialize (Hlt Ht). simpl in *. lia.
Qed.

Lemma sorted_lookup (k1 k2 : nat) t1 t2 :
  (k1 < k2)%nat -> ts !! k1 = Some t1 -> ts !! k2 = Some t2 ->
  not_after compareTriplets t1 t2.
Proof.
  intros Hk H1 H2. rewrite <-(take_drop k1 ts) in ts_sorted.
  apply StronglySorted_app_1_r in ts_sorted.
  rewrite (drop_S _ _ _ H1) in ts_sorted.
  apply StronglySorted_cons in ts_sorted as [Hall _].
  rewrite Forall_lookup in Hall. apply (Hall (k2 - S k1)%nat).
  rewrite lookup_drop. by replace (S k1 + (k2 - S k1))%nat with k2 by lia.
Qed.

Lemma row_slice_sorted i :
  StronglySorted (not_after compareTriplets) (row_slice ts i).
Proof.
  unfold row_slice.
  set (m := Z.to_nat (entries_before ts i)).
  set (n := Z.to_nat (entries_before ts (i + 1) - entries_before ts i)).
  pose proof ts_sorted as Hs. rewrite <-(take_drop m ts) in Hs.
  apply StronglySorted_app_1_r in Hs.
  rewrite <-(take_drop n (drop m ts)) in Hs.
  by apply StronglySorted_app_1_l in Hs.
Qed.

Lemma row_slice_rows i : Forall (fun t => row t = i) (row_slice ts i).
Proof.
  apply Forall_lookup. intros k t Hk. unfold row_slice in Hk.
  apply lookup_take_Some in Hk as [Hk Hlt]. rewrite lookup_drop in Hk.
  pose proof (entries_before_bounds ts i).
  apply (sorted_row_of _ _ _ Hk). lia.
Qed.

Lemma built_row_ptr_total (j : nat) :
  Z.of_nat j <= rows ->
  row_ptr (csr_of_sorted ts rows cols) !!! j = entries_before ts (Z.of_nat j).
Proof. intros Hj. apply list_lookup_total_correct. by apply built_row_ptr. Qed.

Lemma built_row_cols i :
  0 <= i < rows ->
  row_cols (csr_of_sorted ts rows cols) i = col <$> row_slice ts i.
Proof.
  intros Hi. unfold row_cols, row_slice.
  rewrite !built_row_ptr_total by lia. rewrite !Z2Nat.id by lia.
  simpl. by rewrite fmap_take, fmap_drop.
Qed.

Lemma built_row_entries i :
  0 <= i < rows ->
  row_entries (csr_of_sorted ts rows cols) i =
  (fun t => (col t, val t)) <$> row_slice ts i.
Proof.
  intros Hi. unfold row_entries, row_slice.
  rewrite !built_row_ptr_total by lia. rewrite !Z2Nat.id by lia.
  simpl. by rewrite zip_col_val, fmap_take, fmap_drop.
Qed.

Lemma csr_of_sorted_invariants : csr_invariants (csr_of_sorted ts rows cols).
Proof.
  destruct ts_valid as (Hrows & Hcols & Hall).
  split.
  - simpl. rewrite row_ptr_upto_length. lia.
  - simpl. by rewrite length_fmap.
  - simpl. by rewrite length_fmap.
  - rewrite built_row_ptr by lia. change (Z.of_nat 0) with 0.
    by rewrite valid_rows_nonneg.
  - simpl. rewrite row_ptr_upto_lookup, Z2Nat.id by lia.
    rewrite decide_True by lia. by rewrite valid_rows_below.
  - apply Sorted_lookup_le. intros i a b Ha Hb.
    apply built_row_ptr_Some in Ha as [_ ->], Hb as [_ ->].
    apply entries_before_mono. lia.
  - simpl. apply Forall_fmap. eapply Forall_impl; [exact Hall|]. simpl. tauto.
  - apply Forall_seqZ. intros i Hi. simpl in Hi.
    rewrite built_row_cols by lia.
    apply StronglySorted_Sorted.
    apply (StronglySorted_fmap_on _ (fun t => row t = i) (not_after compareTriplets));
      [|apply row_slice_sorted|apply row_slice_rows].
    intros t1 t2 H1 H2. rewrite not_after_spec. lia.
Qed.
End built.

Lemma valid_triplets_perm ts ts' nrows ncols :
  ts' ≡ₚ ts -> valid_triplets ts nrows ncols -> valid_triplets ts' nrows ncols.
Proof. intros Hperm (? & ? & ?). split_and!; [done..|]. by rewrite Hperm. Qed.

(** On a valid triplet set for fewer than [INT_MAX] rows the conversion
    returns [csr_of_sorted] of the sorted triplets, which satisfies the
    invariants. *)
Lemma build_valid sort triplets nrows ncols :
  is_std_sort compareTriplets sort ->
  valid_triplets triplets nrows ncols ->
  nrows < INT_MAX ->
  build sort triplets nrows ncols = Ok (csr_of_sorted (sort triplets) nrows ncols) /\
  csr_invariants (csr_of_sorted (sort triplets) nrows ncols).
Proof.
  intros Hsort Hvalid Hint. destruct (Hsort triplets) as [Hperm Hsorted]. split.
  - destruct Hvalid as (? & ? & Hall). apply build_closed_form; [done|lia|].
    eapply Forall_impl; [exact Hall|]. simpl. lia.
  - apply csr_of_sorted_invariants; [done|]. by eapply valid_triplets_perm.
Qed.

(** ** The static schedule is one of the runs that OpenMP allows *)

Lemma filter_owner_split (f : Z -> nat) (team : nat) (l : list Z) :
  filter (fun i => (f i < team)%nat) l ++ filter (fun i => f i = team) l
  ≡ₚ filter (fun i => (f i < S team)%nat) l.
Proof.
  induction l as [|x l IH]; [done|].
  destruct (decide (f x < team)%nat).
  - rewrite (filter_cons_True (fun i => (f i < team)%nat)) by done.
    rewrite (filter_cons_False (fun i => f i = team)) by lia.
    rewrite (filter_cons_True (fun i => (f i < S team)%nat)) by lia.
    simpl. by rewrite IH.
  - rewrite (filter_cons_False (fun i => (f i < team)%nat)) by done.
    destruct (decide (f x = team)).
    + rewrite (filter_cons_True (fun i => f i = team)) by done.
      rewrite (filter_cons_True (fun i => (f i < S team)%nat)) by lia.
      by rewrite <-Permutation_middle, IH.
    + rewrite (filter_cons_False (fun i => f i = team)) by done.
      rewrite (filter_cons_False (fun i => (f i < S team)%nat)) by lia.
      done.
Qed.

Lemma static_run_rows team chunk n :
  (static_run team chunk n).*2
  ≡ₚ filter (fun i => (static_owner team chunk i < team)%nat) (seqZ 0 n).
Proof.
  unfold static_run. generalize (seqZ 0 n) as l. intros l.
  generalize (static_owner team chunk) as f. intros f.
  induction team as [|team IH].
  - simpl. induction l as [|x l IHl]; [done|]. by rewrite filter_cons_False by lia.
  - rewrite seq_S, bind_app, fmap_app, IH. simpl.
    rewrite app_nil_r, <-list_fmap_compose.
    rewrite (list_fmap_ext _ id (filter (fun i => f i = team) l)) by done.
    rewrite list_fmap_id. apply filter_owner_split.
Qed.

Lemma filter_all {T} (P : T -> Prop) `{!forall x, Decision (P x)} (l : list T) :
  Forall P l -> filter P l = l.
Proof.
  induction 1 as [|x l Hx Hl IH]; [done|].
  rewrite filter_cons_True by done. by f_equal.
Qed.

Lemma static_run_schedules icv (team : nat) n :
  (1 <= team)%nat -> Z.of_nat team <= Z.max 1 (nthreads_var icv) ->
  omp_schedules icv n (static_run team (Z.max 1 (run_sched_chunk icv)) n).
Proof.
  intros Hteam Hmax. exists team. split_and!; [done|done|..].
  - unfold static_run. apply Forall_forall. intros [t i] Hin.
    apply list_elem_of_bind in Hin as (t' & Hin & Ht').
    apply list_elem_of_fmap in Hin as (i' & Heq & _).
    injection Heq as -> ->. simpl. apply elem_of_seq in Ht'. lia.
  - rewrite static_run_rows. rewrite filter_all; [done|].
    apply Forall_seqZ. intros i Hi. unfold static_owner.
    pose proof (Z.mod_pos_bound (i / Z.max 1 (run_sched_chunk icv)) (Z.of_nat team)
                  ltac:(lia)). lia.
  - intros _ Hchunk. rewrite Z.max_r by done.
    unfold static_run. apply Forall_forall. intros [t i] Hin.
    apply list_elem_of_bind in Hin as (t' & Hin & Ht').
    apply list_elem_of_fmap in Hin as (i' & Heq & Hin).
    injection Heq as -> ->. simpl.
    by apply list_elem_of_filter in Hin as [-> _].
Qed.

Lemma example_env_conforming : omp_conforming example_env.
Proof. intros icv n k. simpl. apply static_run_schedules; lia. Qed.

(** ** The sorted triplets of the scenarios *)

Lemma std_sort_as_merge_sort sort l :
  is_std_sort compareTriplets sort ->
  (forall a b, a ∈ l -> b ∈ l -> row a = row b -> col a = col b -> a = b) ->
  sort l = merge_sort_triplets l.
Proof.
  intros Hsort Hl.
  by apply std_sort_unique; [|apply merge_sort_is_std_sort|].
Qed.

Lemma scenario_sorted sort :
  is_std_sort compareTriplets sort -> sort scenario_triplets = scenario_triplets.
Proof.
  intros Hsort. rewrite (std_sort_as_merge_sort sort); [done|done|].
  intros a b Ha Hb. unfold scenario_triplets in *.
  repeat (apply elem_of_cons in Ha as [->|Ha]); [..|by apply not_elem_of_nil in Ha];
    repeat (apply elem_of_cons in Hb as [->|Hb]);
    first [done | by apply not_elem_of_nil in Hb | simpl; lia].
Qed.

Lemma duplicate_sorted sort :
  is_std_sort compareTriplets sort -> sort duplicate_triplets = duplicate_triplets.
Proof.
  intros Hsort. rewrite (std_sort_as_merge_sort sort); [done|done|].
  intros a b Ha Hb. unfold duplicate_triplets in *.
  repeat (apply elem_of_cons in Ha as [->|Ha]); [..|by apply not_elem_of_nil in Ha];
    repeat (apply elem_of_cons in Hb as [->|Hb]);
    first [done | by apply not_elem_of_nil in Hb].
Qed.

Lemma scenario_build sort :
  is_std_sort compareTriplets sort ->
  build sort scenario_triplets 2 2 = Ok scenario_csr.
Proof.
  intros Hsort. rewrite build_closed_form; [|done|int_lia|].
  - by rewrite scenario_sorted.
  - unfold scenario_triplets. repeat constructor; simpl; lia.
Qed.

(** ** Rows without triplets, and the triplets of a row *)

Lemma entries_before_skip l i :
  Forall (fun t => row t ≠ i) l -> entries_before l (i + 1) = entries_before l i.
Proof.
  intros Hl. unfold entries_before. do 2 f_equal.
  induction Hl as [|t l Ht Hl IH]; [done|].
  destruct (decide (row t < i)).
  - rewrite !filter_cons_True by lia. by f_equal.
  - rewrite !filter_cons_False by lia. done.
Qed.

Lemma filter_none {T} (P : T -> Prop) `{!forall x, Decision (P x)} (l : list T) :
  Forall (fun x => ¬ P x) l -> filter P l = [].
Proof.
  induction 1 as [|x l Hx Hl IH]; [done|]. by rewrite filter_cons_False.
Qed.

(** In a sorted list the slice of row [i] holds the triplets of row [i],
    all of them, in their order. *)
Lemma row_slice_filter ts i :
  StronglySorted (not_after compareTriplets) ts ->
  row_slice ts i = filter (fun t => row t = i) ts.
Proof.
  intros Hs.
  pose proof (row_slice_rows ts Hs i) as Hmid. unfold row_slice in *.
  destruct (sorted_split ts i Hs) as [Hlo _].
  destruct (sorted_split ts (i + 1) Hs) as [_ Hhi].
  pose proof (entries_before_bounds ts i).
  pose proof (entries_before_mono ts i (i + 1) ltac:(lia)).
  set (a := Z.to_nat (entries_before ts i)) in *.
  set (n := Z.to_nat (entries_before ts (i + 1) - entries_before ts i)) in *.
  replace (Z.to_nat (entries_before ts (i + 1))) with (a + n)%nat in Hhi by lia.
  rewrite <-(take_drop a ts) at 2.
  rewrite <-(take_drop n (drop a ts)) at 2.
  rewrite drop_drop, !filter_app.
  rewrite (filter_none _ (take a ts)), (filter_none _ (drop (a + n) ts)).
  - simpl. by rewrite app_nil_r, filter_all.
  - eapply Forall_impl; [exact Hhi|]. simpl. lia.
  - eapply Forall_impl; [exact Hlo|]. simpl. lia.
Qed.

Lemma foldl_entries (ci : list Z) (vs v : list float) (n : nat) (a : Z) (s : float) :
  0 <= a -> a + Z.of_nat n <= Z.of_nat (length ci) ->
  length vs = length ci ->
  foldl (fun sum k =>
           (sum + (vs !!! Z.to_nat k) * (v !!! Z.to_nat (ci !!! Z.to_nat k)))%float)
        s (seqZ a (Z.of_nat n)) =
  foldl (fun sum e => (sum + e.2 * (v !!! Z.to_nat e.1))%float) s
        (take n (drop (Z.to_nat a) (zip ci vs))).
Proof.
  revert a s. induction n as [|n IH]; intros a s Ha Hbound Hlen; [done|].
  rewrite seqZ_cons by lia.
  assert (Z.to_nat a < length (zip ci vs))%nat as Hlt.
  { rewrite length_zip_with. lia. }
  destruct (lookup_lt_is_Some_2 _ _ Hlt) as [[c x] Hcx].
  rewrite (drop_S _ _ _ Hcx). simpl.
  apply lookup_zip_with_Some in Hcx as (c' & x' & Heq & Hc & Hx).
  injection Heq as -> ->.
  rewrite (list_lookup_total_correct _ _ _ Hc), (list_lookup_total_correct _ _ _ Hx).
  replace (Z.pred (Z.of_nat (S n))) with (Z.of_nat n) by lia.
  rewrite (IH (Z.succ a)) by lia.
  by replace (Z.to_nat (Z.succ a)) with (S (Z.to_nat a)) by lia.
Qed.

(** The sum of the spec for row [i] adds one product for every entry of
    the row. *)
Lemma spec_row_sum_entries A v i :
  csr_invariants A -> 0 <= i < rows A ->
  spec_row_sum A v i =
  foldl (fun sum e => (sum + e.2 * (v !!! Z.to_nat e.1))%float) 0%float (row_entries A i).
Proof.
  intros HA Hi. unfold spec_row_sum, row_entries.
  pose proof (inv_row_ptr_length A HA) as Hlen.
  pose proof (inv_col_ind_length A HA) as Hci.
  pose proof (inv_values_length A HA) as Hvs.
  assert (0 <= row_ptr A !!! Z.to_nat i <= nnz A) as Ha.
  { apply (row_ptr_bounds A HA (Z.to_nat i)), row_ptr_total; [done|lia]. }
  assert (0 <= row_ptr A !!! Z.to_nat (i + 1) <= nnz A) as Hb.
  { apply (row_ptr_bounds A HA (Z.to_nat (i + 1))), row_ptr_total; [done|lia]. }
  revert Ha Hb.
  generalize (row_ptr A !!! Z.to_nat i) as a.
  generalize (row_ptr A !!! Z.to_nat (i + 1)) as b. intros b a Ha Hb.
  destruct (decide (a <= b)) as [Hab|Hab].
  - rewrite <-foldl_entries by lia. f_equal. f_equal. lia.
  - rewrite seqZ_nil by lia. by replace (Z.to_nat (b - a)) with 0%nat by lia.
Qed.

(** ** No triplets at all *)



(** ** The benchmark *)

(** A loop whose state after [k] iterations is known to be [g k]. *)
Lemma for_each_states {S} (body : Z -> S -> result S) (g : nat -> S) lo (n : nat) :
  (forall k : nat, (k < n)%nat -> body (lo + Z.of_nat k) (g k) = Ok (g (Datatypes.S k))) ->
  for_each body (seqZ lo (Z.of_nat n)) (g 0%nat) = Ok (g n).
Proof.
  induction n as [|n IH]; intros Hbody; [done|].
  rewrite seqZ_S, for_each_app, IH by (intros; apply Hbody; lia).
  cbn [bind for_each]. by rewrite Hbody by lia.
Qed.

Lemma replicate_snoc {T} (x : T) (k : nat) :
  replicate k x ++ [x] = replicate (S k) x.
Proof. induction k as [|k IH]; simpl; [done|]. by f_equal. Qed.

Lemma spmv_kernel_spec f k A v c :
  spmv_kernel f -> csr_invariants A ->
  Z.of_nat (length v) = cols A -> Z.of_nat (length c) = rows A ->
  f k A v c = Ok (spec_multiply A v).
Proof.
  intros Hf HA Hv Hc. destruct Hf as [|env icv Henv].
  - by apply spmv_csr_sequential_spec.
  - unfold parallel_kernel. apply spmv_csr_parallel_spec; [done..| |done].
    by destruct (Henv icv (rows A) k) as (team & _ & _ & _ & Hrun & _).
Qed.

Lemma spec_multiply_length A v :
  0 <= rows A -> Z.of_nat (length (spec_multiply A v)) = rows A.
Proof. intros HA. unfold spec_multiply. rewrite length_fmap, length_seqZ. lia. Qed.

Lemma csr_invariants_rows A : csr_invariants A -> 0 <= rows A.
Proof.
  intros HA. pose proof (inv_row_ptr_length A HA).
  pose proof (lookup_lt_Some _ _ _ (inv_first A HA)). lia.
Qed.

Lemma call_kernel_spec f st :
  spmv_kernel f -> csr_invariants (b_csr st) ->
  Z.of_nat (length (b_v_input st)) = cols (b_csr st) ->
  Z.of_nat (length (b_c_output st)) = rows (b_csr st) ->
  call_kernel f st =
  Ok (mkBench (b_csr st) (b_v_input st) (spec_multiply (b_csr st) (b_v_input st))
        (b_times_ms st)
        (mkWorld (n_draws (b_world st)) (n_ticks (b_world st))
           (S (n_calls (b_world st))) (trace (b_world st) ++ [EvKernel]))).
Proof.
  intros Hf HA Hv Hc. unfold call_kernel.
  by rewrite (spmv_kernel_spec f _ _ _ _ Hf HA Hv Hc).
Qed.

(** The state after [k >= 1] calls in a row. *)
Lemma repeat_kernel_spec f st (n : nat) :
  spmv_kernel f -> csr_invariants (b_csr st) ->
  Z.of_nat (length (b_v_input st)) = cols (b_csr st) ->
  Z.of_nat (length (b_c_output st)) = rows (b_csr st) ->
  repeat_kernel f (Z.of_nat (S n)) st =
  Ok (mkBench (b_csr st) (b_v_input st) (spec_multiply (b_csr st) (b_v_input st))
        (b_times_ms st)
        (mkWorld (n_draws (b_world st)) (n_ticks (b_world st))
           (S n + n_calls (b_world st)) (trace (b_world st) ++ replicate (S n) EvKernel))).
Proof.
  intros Hf HA Hv Hc. unfold repeat_kernel.
  rewrite for_int_for_each, Z.sub_0_r.
  pose proof (csr_invariants_rows _ HA) as Hrows.
  set (g := fun k : nat =>
    match k with
    | O => st
    | S k' =>
        mkBench (b_csr st) (b_v_input st) (spec_multiply (b_csr st) (b_v_input st))
          (b_times_ms st)
          (mkWorld (n_draws (b_world st)) (n_ticks (b_world st))
             (k + n_calls (b_world st)) (trace (b_world st) ++ replicate k EvKernel))
    end).
  apply (for_each_states _ g 0 (S n)).
  intros [|k] Hk.
  - simpl. by rewrite call_kernel_spec.
  - unfold g. rewrite call_kernel_spec; [|done|done..|].
    + cbn [b_csr b_v_input b_c_output b_times_ms b_world n_draws n_ticks n_calls trace].
      by rewrite <-app_assoc, replicate_snoc.
    + simpl. by apply spec_multiply_length.
Qed.

(** The vector [v_input] once the first [k] slots have been drawn. *)
Lemma random_loop env st (n : nat) :
  b_v_input st = replicate n 0%float ->
  for_each (random_step env) (seqZ 0 (Z.of_nat n)) st =
  Ok (mkBench (b_csr st)
        (drawn env <$> seq (n_draws (b_world st)) n)
        (b_c_output st) (b_times_ms st)
        (mkWorld (n + n_draws (b_world st)) (n_ticks (b_world st))
           (n_calls (b_world st)) (trace (b_world st) ++ replicate n EvRandom))).
Proof.
  intros Hv. destruct st as [A v c t [d tk cl tr]]. simpl in *. subst v.
  set (g := fun k : nat =>
    mkBench A ((drawn env <$> seq d k) ++ replicate (n - k) 0%float) c t
      (mkWorld (k + d) tk cl (tr ++ replicate k EvRandom))).
  pose proof (for_each_states (random_step env) g 0 n) as Hloop.
  assert (g 0%nat = mkBench A (replicate n 0%float) c t (mkWorld d tk cl tr)) as H0.
  { unfold g. simpl. by rewrite Nat.sub_0_r, app_nil_r. }
  assert (g n = mkBench A (drawn env <$> seq d n) c t
                  (mkWorld (n + d) tk cl (tr ++ replicate n EvRandom))) as Hn.
  { unfold g. rewrite Nat.sub_diag. simpl. by rewrite app_nil_r. }
  rewrite H0, Hn in Hloop.
  apply Hloop. intros k Hk. rewrite Z.add_0_l.
  unfold g, random_step, dist_gen.
  cbn [b_csr b_v_input b_c_output b_times_ms b_world n_draws n_ticks n_calls trace].
  rewrite vec_write_Ok
    by (rewrite length_app, length_fmap, length_seq, length_replicate; lia).
  cbn [bind]. rewrite Nat2Z.id.
  replace (n - k)%nat with (S (n - S k)) by lia.
  rewrite insert_snoc_replicate_at by (by rewrite length_fmap, length_seq).
  rewrite seq_S, fmap_app, <-(app_assoc tr), replicate_snoc.
  by rewrite (Nat.add_comm d k).
Qed.

(** The timed loop. *)
Lemma timed_loop env f st (n : nat) :
  spmv_kernel f -> csr_invariants (b_csr st) ->
  Z.of_nat (length (b_v_input st)) = cols (b_csr st) ->
  b_c_output st = spec_multiply (b_csr st) (b_v_input st) ->
  b_times_ms st = replicate n 0%float ->
  for_each (timed_step env f) (seqZ 0 (Z.of_nat n)) st =
  Ok (mkBench (b_csr st) (b_v_input st) (b_c_output st)
        (durations env (n_ticks (b_world st)) n)
        (mkWorld (n_draws (b_world st)) (2 * n + n_ticks (b_world st))
           (n + n_calls (b_world st))
           (trace (b_world st) ++ mjoin (replicate n [EvWtime; EvKernel; EvWtime])))).
Proof.
  intros Hf HA Hv Hc Ht. destruct st as [A v c t [d tk cl tr]]. simpl in *. subst c t.
  pose proof (csr_invariants_rows _ HA) as Hrows.
  set (g := fun k : nat =>
    mkBench A v (spec_multiply A v) (durations env tk k ++ replicate (n - k) 0%float)
      (mkWorld d (2 * k + tk) (k + cl)
         (tr ++ mjoin (replicate k [EvWtime; EvKernel; EvWtime])))).
  pose proof (for_each_states (timed_step env f) g 0 n) as Hloop.
  assert (g 0%nat = mkBench A v (spec_multiply A v) (replicate n 0%float)
                      (mkWorld d tk cl tr)) as H0.
  { unfold g, durations. simpl. by rewrite Nat.sub_0_r, app_nil_r. }
  assert (g n = mkBench A v (spec_multiply A v) (durations env tk n)
                  (mkWorld d (2 * n + tk) (n + cl)
                     (tr ++ mjoin (replicate n [EvWtime; EvKernel; EvWtime])))) as Hn.
  { unfold g. rewrite Nat.sub_diag. simpl replicate at 1. by rewrite app_nil_r. }
  rewrite H0, Hn in Hloop.
  apply Hloop. intros k Hk. rewrite Z.add_0_l.
  unfold g, timed_step, omp_get_wtime.
  cbn [b_csr b_v_input b_c_output b_times_ms b_world n_draws n_ticks n_calls trace].
  rewrite call_kernel_spec;
    [|done|done|done|cbn [b_csr b_v_input b_c_output]; by apply spec_multiply_length].
  cbn [bind b_csr b_v_input b_c_output b_times_ms b_world n_draws n_ticks n_calls trace].
  rewrite vec_write_Ok
    by (unfold durations;
        rewrite length_app, length_fmap, length_seq, length_replicate; lia).
  cbn [bind]. rewrite Nat2Z.id.
  replace (n - k)%nat with (S (n - S k)) by lia.
  rewrite insert_snoc_replicate_at by (unfold durations; by rewrite length_fmap, length_seq).
  unfold durations. rewrite seq_S, fmap_app.
  rewrite replicate_S_end, join_app. cbn [mjoin list_join app].
  rewrite <-!(app_assoc tr). cbn [app fmap list_fmap].
  replace (2 * S k + tk)%nat with (S (S (2 * k + tk))) by lia.
  replace (tk + 2 * (0 + k) + 1)%nat with (S (2 * k + tk)) by lia.
  replace (tk + 2 * (0 + k))%nat with (2 * k + tk)%nat by lia.
  rewrite <-!app_assoc. done.
Qed.

Lemma random_loop_cols env st (n : Z) :
  0 <= n -> b_v_input st = replicate (Z.to_nat n) 0%float ->
  for_each (random_step env) (seqZ 0 n) st =
  Ok (mkBench (b_csr st)
        (drawn env <$> seq (n_draws (b_world st)) (Z.to_nat n))
        (b_c_output st) (b_times_ms st)
        (mkWorld (Z.to_nat n + n_draws (b_world st)) (n_ticks (b_world st))
           (n_calls (b_world st)) (trace (b_world st) ++ replicate (Z.to_nat n) EvRandom))).
Proof.
  intros Hn Hv. rewrite <-(Z2Nat.id n) at 1 by done. by apply random_loop.
Qed.

Lemma benchmark_spec env f (n : nat) A w :
  spmv_kernel f -> csr_invariants A -> 0 <= cols A ->
  benchmark env f (Z.of_nat n) A w =
  Ok (mkBench A
        (drawn env <$> seq (n_draws w) (Z.to_nat (cols A)))
        (spec_multiply A (drawn env <$> seq (n_draws w) (Z.to_nat (cols A))))
        (durations env (n_ticks w) n)
        (mkWorld (Z.to_nat (cols A) + n_draws w) (2 * n + n_ticks w)
           (n + S (n_calls w))
           (trace w ++ replicate (Z.to_nat (cols A)) EvRandom ++ [EvKernel] ++
            mjoin (replicate n [EvWtime; EvKernel; EvWtime])))).
Proof.
  intros Hf HA Hcols. pose proof (csr_invariants_rows _ HA) as Hrows.
  unfold benchmark. rewrite !vec_alloc_Ok by lia. cbn [bind].
  rewrite for_int_for_each, Z.sub_0_r.
  rewrite random_loop_cols by done.
  cbn [bind b_csr b_v_input b_c_output b_times_ms b_world].
  rewrite call_kernel_spec; cbn [b_csr b_v_input b_c_output b_times_ms b_world];
    [|done|done|rewrite length_fmap, length_seq; lia|rewrite length_replicate; lia].
  cbn [bind b_csr b_v_input b_c_output b_times_ms b_world].
  rewrite for_int_for_each, Z.sub_0_r.
  rewrite timed_loop; cbn [b_csr b_v_input b_c_output b_times_ms b_world];
    [|done|done|rewrite length_fmap, length_seq; lia|done|by rewrite Nat2Z.id].
  cbn [n_draws n_ticks n_calls trace]. do 3 f_equal.
  by rewrite <-!app_assoc.
Qed.

(** ** The trace only grows *)

Lemma extends_refl w : extends w w.
Proof. exists []. by rewrite app_nil_r. Qed.

Lemma extends_trans w1 w2 w3 : extends w1 w2 -> extends w2 w3 -> extends w1 w3.
Proof.
  intros [tr1 H1] [tr2 H2]. exists (tr1 ++ tr2). by rewrite H2, H1, app_assoc.
Qed.

Lemma for_each_extends {S} (body : Z -> S -> result S) (world_of : S -> world) l s s' :
  (forall i s1 s2, body i s1 = Ok s2 -> extends (world_of s1) (world_of s2)) ->
  for_each body l s = Ok s' -> extends (world_of s) (world_of s').
Proof.
  intros Hbody. revert s. induction l as [|i l IH]; intros s Hrun; simpl in Hrun.
  - injection Hrun as ->. apply extends_refl.
  - destruct (body i s) as [s1|] eqn:Hs1; [|done]. simpl in Hrun.
    eapply extends_trans; [by eapply Hbody|by apply IH].
Qed.

Lemma call_kernel_extends f st st' :
  call_kernel f st = Ok st' -> extends (b_world st) (b_world st').
Proof.
  unfold call_kernel. destruct (f _ _ _ _); [|done].
  simpl. intros [= <-]. simpl. by eexists.
Qed.

Lemma random_step_extends env i st st' :
  random_step env i st = Ok st' -> extends (b_world st) (b_world st').
Proof.
  unfold random_step. simpl. destruct (vec_write _ _ _); [|done].
  simpl. intros [= <-]. simpl. by eexists.
Qed.

Lemma timed_step_extends env f i st st' :
  timed_step env f i st = Ok st' -> extends (b_world st) (b_world st').
Proof.
  unfold timed_step. simpl.
  destruct (call_kernel f _) as [st1|] eqn:Hcall; [|done]. simpl.
  destruct (vec_write _ _ _); [|done]. simpl. intros [= <-]. simpl.
  apply call_kernel_extends in Hcall.
  destruct Hcall as [tr Htr]. simpl in Htr.
  exists ([EvWtime] ++ tr ++ [EvWtime]). simpl. rewrite Htr.
  by rewrite <-!app_assoc.
Qed.

Lemma benchmark_extends env f n A w st :
  benchmark env f n A w = Ok st -> extends w (b_world st).
Proof.
  unfold benchmark.
  destruct (vec_alloc (cols A) _) as [v|]; [|done]. cbn [bind].
  rewrite !for_int_for_each.
  destruct (for_each (random_step env) _ _) as [st1|] eqn:H1; [|done]. cbn [bind].
  destruct (vec_alloc (rows A) _) as [c|]; [|done]. cbn [bind].
  destruct (call_kernel f _) as [st2|] eqn:H2; [|done]. cbn [bind].
  destruct (vec_alloc n _) as [t|]; [|done]. cbn [bind].
  rewrite for_int_for_each. intros H3.
  apply (for_each_extends _ b_world) in H1; [|apply random_step_extends].
  apply call_kernel_extends in H2.
  apply (for_each_extends _ b_world) in H3; [|apply timed_step_extends].
  simpl in *. eauto using extends_trans.
Qed.

Lemma benchmark_trace_prefix env f n A tr0 st :
  benchmark env f n A (mkWorld 0 0 0 tr0) = Ok st ->
  exists tr, trace (b_world st) = tr0 ++ tr.
Proof. intros Hb. by apply benchmark_extends in Hb. Qed.

(** A number that is compared with [<=] is not a NaN, and is [<=]
    itself. *)
Lemma SFcompare_refl x :
  SFcompare x x = None \/ SFcompare x x = Some Eq.
Proof.
  destruct x as [s| s| |s m e]; simpl.
  - by right.
  - right. by destruct s.
  - by left.
  - right. rewrite Z.compare_refl, Pos.compare_cont_refl. by destruct s.
Qed.

Lemma leb_refl_of_leb a b :
  PrimFloat.leb a b = true ->
  PrimFloat.leb a a = true /\ PrimFloat.leb b b = true.
Proof.
  rewrite !FloatAxioms.leb_spec. unfold SFleb.
  destruct (SFcompare_refl (Prim2SF a)) as [Ha|Ha],
           (SFcompare_refl (Prim2SF b)) as [Hb|Hb]; rewrite ?Ha, ?Hb.
  - destruct (Prim2SF a), (Prim2SF b); simpl in *; done.
  - destruct (Prim2SF a), (Prim2SF b); simpl in *; done.
  - destruct (Prim2SF a), (Prim2SF b); simpl in *; done.
  - done.
Qed.

Lemma example_env_dist : dist_conforming example_env.
Proof.
  intros a b k Hab. simpl.
  destruct (leb_refl_of_leb a b Hab) as [Ha Hb].
  by destruct (Nat.even k).
Qed.

(** The draws of [main] lie in the range of its distribution. *)
Lemma drawn_in_range env k : dist_conforming env -> in_range (drawn env k).
Proof. intros Henv. by apply Henv. Qed.

(** ** [main] from the command line to the CSV line *)

Lemma kernel_calls_app tr1 tr2 :
  kernel_calls (tr1 ++ tr2) = (kernel_calls tr1 + kernel_calls tr2)%nat.
Proof. unfold kernel_calls. by rewrite filter_app, length_app. Qed.

Lemma kernel_calls_random n : kernel_calls (replicate n EvRandom) = 0%nat.
Proof. induction n as [|n IH]; [done|]. exact IH. Qed.

Lemma kernel_calls_timed n :
  kernel_calls (mjoin (replicate n [EvWtime; EvKernel; EvWtime])) = n.
Proof.
  induction n as [|n IH]; [done|].
  change (kernel_calls ([EvWtime; EvKernel; EvWtime] ++
                        mjoin (replicate n [EvWtime; EvKernel; EvWtime])) = S n).
  by rewrite kernel_calls_app, IH.
Qed.

Lemma read_triplets_length nnz entries triplets :
  0 <= nnz -> read_triplets nnz entries = Some triplets ->
  Z.of_nat (length triplets) = nnz.
Proof.
  intros Hnnz. unfold read_triplets. destruct (decide _) as [Hle|]; [|done].
  intros [= <-]. rewrite length_fmap, length_take. lia.
Qed.

(** A run of the program on a well-formed matrix file: the kernel is
    called eleven times, and the CSV line holds the ten durations of the
    timed calls. *)
Lemma main_runs_benchmark sort env prog filename schedule_str arg3 arg4
    kind chunk threads file triplets :
  is_std_sort compareTriplets sort ->
  omp_conforming env ->
  parse_schedule schedule_str = Some kind ->
  stoi arg3 = Some chunk -> stoi arg4 = Some threads ->
  file_system env filename = Some file ->
  0 <= mm_nnz file ->
  read_triplets (mm_nnz file) (mm_entries file) = Some triplets ->
  valid_triplets triplets (mm_rows file) (mm_cols file) ->
  mm_rows file < INT_MAX ->
  exists tr,
    main sort env [prog; filename; schedule_str; arg3; arg4] =
    (Return 0,
     tr ++ [EvCsv (extract_matrix_name (list_ascii_of_string filename))
              schedule_str chunk threads (durations env 0 10)]) /\
    kernel_calls tr = 11%nat.
Proof.
  intros Hsort Henv Hkind Hchunk Hthreads Hfile Hnnz Hread Hvalid Hint.
  unfold main. rewrite Hchunk, Hthreads, Hkind, Hfile, Hread.
  rewrite decide_False by lia.
  rewrite <-(read_triplets_length _ _ _ Hnnz Hread).
  change (coo_to_csr sort triplets (mm_rows file) (mm_cols file)
            (Z.of_nat (length triplets)))
    with (build sort triplets (mm_rows file) (mm_cols file)).
  destruct (build_valid _ _ _ _ Hsort Hvalid Hint) as [-> HA].
  destruct Hvalid as (Hrows & Hcols & Hall).
  change NUM_RUNS with (Z.of_nat 10).
  rewrite benchmark_spec; [|by constructor|done|simpl; lia].
  cbn [b_world b_times_ms trace n_ticks].
  eexists. split; [done|].
  rewrite !kernel_calls_app, kernel_calls_random, kernel_calls_timed. done.
Qed.

(** * The claims *)

(** C1.  For every CSR matrix [A] that satisfies the CSR invariants and
    every vector [v] of length [cols A], the sequential kernel (run on an
    output vector of length [rows A]) returns a vector of length [rows A]
    whose entry [i] is the sum of the spec: the products
    [values[k] * v[col_ind[k]]] for [k] from [row_ptr[i]] up to
    [row_ptr[i+1]], added in ascending order of [k] with binary64
    addition.  In particular the 2 x 2 scenario with the triplets
    (0,0,1.0), (0,1,2.0), (1,1,3.0) and [v = [1.0; 1.0]] gives
    [c = [3.0; 3.0]], whatever sorting function the conversion uses. *)
Theorem spmv_csr_sequential_correct :
  (forall A v c,
     csr_invariants A ->
     Z.of_nat (length v) = cols A ->
     Z.of_nat (length c) = rows A ->
     exists c',
       spmv_csr_sequential A v c = Ok c' /\
       Z.of_nat (length c') = rows A /\
       forall i, 0 <= i < rows A -> c' !! Z.to_nat i = Some (spec_row_sum A v i)) /\
  (forall sort,
     is_std_sort compareTriplets sort ->
     exists A,
       build sort scenario_triplets 2 2 = Ok A /\
       spmv_csr_sequential A [1; 1]%float [0; 0]%float = Ok [3; 3]%float).
Proof.
  split.
  - intros A v c HA Hv Hc. exists (spec_multiply A v).
    split; [by apply spmv_csr_sequential_spec|].
    unfold spec_multiply. split.
    + rewrite length_fmap, length_seqZ. lia.
    + intros i Hi. rewrite list_lookup_fmap, lookup_seqZ_lt by lia.
      simpl. do 2 f_equal. lia.
  - intros sort Hsort. exists scenario_csr. split; [by apply scenario_build|].
    reflexivity.
Qed.

Lemma spmv_csr_sequential_correct_witness :
  csr_invariants scenario_csr /\
  Z.of_nat (length [1; 1]%float) = cols scenario_csr /\
  Z.of_nat (length [0; 0]%float) = rows scenario_csr /\
  exists c',
    spmv_csr_sequential scenario_csr [1; 1]%float [0; 0]%float = Ok c' /\
    Z.of_nat (length c') = rows scenario_csr /\
    forall i, 0 <= i < rows scenario_csr ->
      c' !! Z.to_nat i = Some (spec_row_sum scenario_csr [1; 1]%float i).
Proof.
  assert (csr_invariants scenario_csr) as HA by compute_done.
  split; [exact HA|]. split; [reflexivity|]. split; [reflexivity|].
  apply (proj1 spmv_csr_sequential_correct scenario_csr); [exact HA|reflexivity..].
Defined.

(** C2.  For every CSR matrix [A] that satisfies the invariants, every
    vector [v] of length [cols A] and every run that OpenMP allows for the
    row loop under the configured thread count, schedule kind and chunk
    size (so in particular for 1 to 64 threads), the parallel kernel
    returns the very vector that the sequential kernel returns: every row
    is summed by one iteration, in ascending order of [k]. *)
Theorem spmv_csr_parallel_bit_identical icv run A v c :
  csr_invariants A ->
  Z.of_nat (length v) = cols A ->
  Z.of_nat (length c) = rows A ->
  omp_schedules icv (rows A) run ->
  spmv_csr_parallel run A v c = spmv_csr_sequential A v c /\
  spmv_csr_sequential A v c = Ok (spec_multiply A v).
Proof.
  intros HA Hv Hc (team & _ & _ & _ & Hrun & _).
  rewrite spmv_csr_sequential_spec by done.
  by rewrite spmv_csr_parallel_spec.
Qed.

Lemma spmv_csr_parallel_bit_identical_witness :
  csr_invariants scenario_csr /\
  omp_schedules (mkIcv 64 omp_sched_static 1) (rows scenario_csr) (static_run 64 1 2) /\
  spmv_csr_parallel (static_run 64 1 2) scenario_csr [1; 1]%float [0; 0]%float =
    spmv_csr_sequential scenario_csr [1; 1]%float [0; 0]%float /\
  spmv_csr_sequential scenario_csr [1; 1]%float [0; 0]%float =
    Ok (spec_multiply scenario_csr [1; 1]%float).
Proof.
  assert (csr_invariants scenario_csr) as HA by compute_done.
  assert (omp_schedules (mkIcv 64 omp_sched_static 1) (rows scenario_csr)
            (static_run 64 1 2)) as Hrun
    by (apply (static_run_schedules (mkIcv 64 omp_sched_static 1) 64); simpl; lia).
  split; [exact HA|]. split; [exact Hrun|].
  apply (spmv_csr_parallel_bit_identical (mkIcv 64 omp_sched_static 1));
    [exact HA|reflexivity|reflexivity|exact Hrun].
Defined.



(** C4 (as the code has it).  An unrecognised schedule value (anything
    but static, dynamic, guided), and a chunk size or thread count that
    [std::stoi] cannot turn into an [int], is rejected with exit status 1
    and a message on stderr before the matrix file is opened and before
    any row is processed.  The thread count is not examined any further:
    whatever integer it is, also 0 or a negative one, [main] passes it to
    [omp_set_num_threads] and goes on to open the matrix file. *)
Theorem configuration_rejection sort env prog filename schedule_str arg3 arg4 :
  (schedule_str ≠ "static"%string /\ schedule_str ≠ "dynamic"%string /\
   schedule_str ≠ "guided"%string \/ stoi arg3 = None \/ stoi arg4 = None ->
   exists msg,
     main sort env [prog; filename; schedule_str; arg3; arg4] =
     (Return 1, [EvStderr msg])) /\
  (forall kind chunk threads,
     parse_schedule schedule_str = Some kind ->
     stoi arg3 = Some chunk -> stoi arg4 = Some threads ->
     exists status tr,
       main sort env [prog; filename; schedule_str; arg3; arg4] =
       (status,
        [EvSetNumThreads threads; EvSetSchedule kind chunk; EvOpen filename] ++ tr)).
Proof.
  split.
  - intros Hbad. unfold main.
    destruct (stoi arg3) as [chunk|]; [|by eexists].
    destruct (stoi arg4) as [threads|]; [|by eexists].
    destruct Hbad as [(H1 & H2 & H3)|[?|?]]; [|done..].
    unfold parse_schedule. rewrite !decide_False by done. by eexists.
  - intros kind chunk threads Hkind Hchunk Hthreads.
    unfold main. rewrite Hchunk, Hthreads, Hkind.
    destruct (file_system env filename) as [file|]; [|by eexists _, _].
    destruct (decide (mm_nnz file < 0)); [by eexists _, []|].
    destruct (read_triplets _ _) as [triplets|]; [|by eexists _, _].
    destruct (coo_to_csr _ _ _ _ _) as [csr|e]; [|by eexists _, []].
    destruct (benchmark _ _ _ _ _) as [st|e] eqn:Hbench; [|by eexists _, []].
    destruct (benchmark_trace_prefix _ _ _ _ _ _ Hbench) as [tr Htr].
    rewrite Htr, <-app_assoc. by eexists _, _.
Qed.

Lemma configuration_rejection_witness :
  (exists msg,
     main merge_sort_triplets example_env ["spmv"; "m.mtx"; "bogus"; "10"; "4"]%string =
     (Return 1, [EvStderr msg])) /\
  (exists status tr,
     main merge_sort_triplets example_env ["spmv"; "m.mtx"; "static"; "10"; "0"]%string =
     (status,
      [EvSetNumThreads 0; EvSetSchedule omp_sched_static 10; EvOpen "m.mtx"] ++ tr)).
Proof.
  split.
  - apply (configuration_rejection merge_sort_triplets example_env
             "spmv" "m.mtx" "bogus" "10" "4").
    left. by split_and!.
  - by apply (configuration_rejection merge_sort_triplets example_env
                "spmv" "m.mtx" "static" "10" "0").
Defined.

(** C4, the claim as the spec has it, fails for the thread count: with
    [num_threads = 0] the program is not stopped.  It sets the thread
    count to 0, reads the matrix, calls the kernel eleven times and
    returns 0. *)
Lemma zero_threads_not_rejected :
  let out := main merge_sort_triplets example_env
               ["spmv"; "m.mtx"; "static"; "10"; "0"]%string in
  out.1 = Return 0 /\
  take 1 out.2 = [EvSetNumThreads 0] /\
  kernel_calls out.2 = 11%nat.
Proof. by vm_compute. Qed.

(** C5 (as the code has it).  The conversion validates nothing and has no
    error of its own for malformed input.  For an [int] [rows] below -1,
    and for [rows = INT_MAX], where [rows + 1] overflows, the allocation
    of [row_ptr] throws a length error and no matrix is built.  For
    [-1 <= rows < INT_MAX] and a triplet in a row behind [max 0 rows] the
    scan makes a write outside of [row_ptr]: the write is not checked,
    nothing is reported, and the behaviour is undefined from there on.
    On every other input with [-1 <= rows < INT_MAX] - whatever [cols] and
    the columns of the triplets are, also for [rows] 0 or -1 and for
    triplets in a negative row or in row [rows] - the conversion returns a
    matrix with the given size that holds every triplet's column and
    value. *)
Theorem build_validates_nothing sort triplets nrows ncols :
  is_std_sort compareTriplets sort ->
  (INT_MIN <= nrows < -1 \/ nrows = INT_MAX ->
   build sort triplets nrows ncols = Err LengthError) /\
  (-1 <= nrows < INT_MAX -> Exists (fun t => Z.max 0 nrows < row t) triplets ->
   build sort triplets nrows ncols = Err OutOfBounds) /\
  (-1 <= nrows < INT_MAX -> Forall (fun t => row t <= Z.max 0 nrows) triplets ->
   exists A,
     build sort triplets nrows ncols = Ok A /\
     rows A = nrows /\ cols A = ncols /\ nnz A = Z.of_nat (length triplets) /\
     zip (col_ind A) (values A) ≡ₚ (fun t => (col t, val t)) <$> triplets).
Proof.
  intros Hsort. split_and!.
  - intros [Hrows | ->];
      [by apply build_length_error|apply build_length_error_max].
  - by apply build_out_of_bounds.
  - intros Hrows Hall. eexists. split; [by apply build_closed_form|].
    destruct (Hsort triplets) as [Hperm _]. simpl.
    split_and!; [done|done|by rewrite Hperm|].
    by rewrite zip_col_val, Hperm.
Qed.

Lemma build_validates_nothing_witness :
  is_std_sort compareTriplets merge_sort_triplets /\
  ((INT_MIN <= -2 < -1 \/ -2 = INT_MAX) /\
   build merge_sort_triplets [mkTriplet (-1) 7 1%float] (-2) 0 = Err LengthError) /\
  (-1 <= 1 < INT_MAX /\ Exists (fun t => Z.max 0 1 < row t) [mkTriplet 2 0 1%float] /\
   build merge_sort_triplets [mkTriplet 2 0 1%float] 1 0 = Err OutOfBounds) /\
  (-1 <= 1 < INT_MAX /\
   Forall (fun t => row t <= Z.max 0 1) [mkTriplet (-1) 7 1%float] /\
   exists A,
     build merge_sort_triplets [mkTriplet (-1) 7 1%float] 1 0 = Ok A /\
     rows A = 1 /\ cols A = 0 /\ nnz A = 1 /\
     zip (col_ind A) (values A) ≡ₚ [(7, 1%float)]).
Proof.
  assert (INT_MIN <= -2 < -1 \/ -2 = INT_MAX) as H1 by (left; unfold INT_MIN; lia).
  assert (-1 <= 1 < INT_MAX) as H2 by (unfold INT_MAX; lia).
  assert (Exists (fun t => Z.max 0 1 < row t) [mkTriplet 2 0 1%float]) as H3
    by (constructor; simpl; lia).
  assert (Forall (fun t => row t <= Z.max 0 1) [mkTriplet (-1) 7 1%float]) as H4
    by (repeat constructor; simpl; lia).
  pose proof (build_validates_nothing merge_sort_triplets [mkTriplet (-1) 7 1%float] (-2) 0
                merge_sort_is_std_sort) as (Ha & _ & _).
  pose proof (build_validates_nothing merge_sort_triplets [mkTriplet 2 0 1%float] 1 0
                merge_sort_is_std_sort) as (_ & Hb & _).
  pose proof (build_validates_nothing merge_sort_triplets [mkTriplet (-1) 7 1%float] 1 0
                merge_sort_is_std_sort) as (_ & _ & Hc).
  split; [exact merge_sort_is_std_sort|].
  split; [exact (conj H1 (Ha H1))|].
  split; [exact (conj H2 (conj H3 (Hb H2 H3)))|].
  exact (conj H2 (conj H4 (Hc H2 H4))).
Defined.

(** C5, the claim as the spec has it, fails: for a 1 x 0 matrix (a
    non-positive [cols]) and the one triplet (-1, 7, 1.0), whose row and
    column are both out of range, the conversion fails with no error: it
    returns a matrix. *)
Lemma build_accepts_malformed_input :
  build merge_sort_triplets [mkTriplet (-1) 7 1%float] 1 0 =
  Ok (mkCsr 1 0 1 [0; 1] [7] [1%float]).
Proof. reflexivity. Qed.

(** C6.  The conversion merges nothing.  For every valid triplet set
    from which it builds a matrix ([nrows < INT_MAX]: the size
    [nrows + 1] of [row_ptr] is an [int]) the matrix has one entry per
    triplet; the entries of row [i] are the
    column/value pairs of the triplets of row [i], each as often as it
    occurs among the triplets; and the kernel's result for row [i] adds
    one product for each of these entries.  In particular the triplet
    (0,0,1.0) given twice for a 1 x 1 matrix with [v = [1.0]] gives
    [c = [2.0]] from the sequential kernel and from every run of the
    parallel one. *)
Theorem duplicates_not_merged :
  (forall sort triplets nrows ncols v c0,
     is_std_sort compareTriplets sort ->
     valid_triplets triplets nrows ncols ->
     nrows < INT_MAX ->
     Z.of_nat (length v) = ncols -> Z.of_nat (length c0) = nrows ->
     exists A c,
       build sort triplets nrows ncols = Ok A /\
       nnz A = Z.of_nat (length triplets) /\
       Z.of_nat (length (col_ind A)) = nnz A /\
       Z.of_nat (length (values A)) = nnz A /\
       spmv_csr_sequential A v c0 = Ok c /\
       forall i, 0 <= i < nrows ->
         row_entries A i ≡ₚ
           (fun t => (col t, val t)) <$> filter (fun t => row t = i) triplets /\
         c !! Z.to_nat i =
           Some (foldl (fun sum e => (sum + e.2 * (v !!! Z.to_nat e.1))%float)
                       0%float (row_entries A i))) /\
  (forall sort,
     is_std_sort compareTriplets sort ->
     exists A,
       build sort duplicate_triplets 1 1 = Ok A /\
       col_ind A = [0; 0] /\ values A = [1; 1]%float /\
       spmv_csr_sequential A [1%float] [0%float] = Ok [2%float] /\
       forall icv run,
         omp_schedules icv 1 run ->
         spmv_csr_parallel run A [1%float] [0%float] = Ok [2%float]).
Proof.
  split.
  - intros sort triplets nrows ncols v c0 Hsort Hvalid Hint Hv Hc0.
    destruct (Hsort triplets) as [Hperm Hsorted].
    pose proof (valid_triplets_perm _ _ _ _ Hperm Hvalid) as Hvalid'.
    destruct (build_valid _ _ _ _ Hsort Hvalid Hint) as [Hbuild HA].
    exists (csr_of_sorted (sort triplets) nrows ncols),
           (spec_multiply (csr_of_sorted (sort triplets) nrows ncols) v).
    split_and!.
    + done.
    + simpl. by rewrite Hperm.
    + apply HA.
    + apply HA.
    + by apply spmv_csr_sequential_spec.
    + intros i Hi. split.
      * rewrite (built_row_entries _ _ _ Hvalid') by done.
        by rewrite row_slice_filter, Hperm.
      * unfold spec_multiply. rewrite list_lookup_fmap.
        change (rows (csr_of_sorted (sort triplets) nrows ncols)) with nrows.
        rewrite lookup_seqZ_lt by lia. simpl.
        rewrite Z.add_0_l, Z2Nat.id by lia.
        f_equal. by apply spec_row_sum_entries.
  - intros sort Hsort.
    exists (mkCsr 1 1 2 [0; 2] [0; 0] [1; 1]%float).
    split_and!; try reflexivity.
    + rewrite build_closed_form; [|done|int_lia|].
      * by rewrite duplicate_sorted.
      * unfold duplicate_triplets. repeat constructor; simpl; lia.
    + intros icv run (team & _ & _ & _ & Hrun & _).
      rewrite spmv_csr_parallel_spec; [reflexivity|compute_done|reflexivity|done|reflexivity].
Qed.

Lemma duplicates_not_merged_witness :
  is_std_sort compareTriplets merge_sort_triplets /\
  valid_triplets duplicate_triplets 1 1 /\
  1 < INT_MAX /\
  exists A c,
    build merge_sort_triplets duplicate_triplets 1 1 = Ok A /\
    nnz A = 2 /\
    Z.of_nat (length (col_ind A)) = nnz A /\
    Z.of_nat (length (values A)) = nnz A /\
    spmv_csr_sequential A [1%float] [0%float] = Ok c /\
    forall i, 0 <= i < 1 ->
      row_entries A i ≡ₚ
        (fun t => (col t, val t)) <$> filter (fun t => row t = i) duplicate_triplets /\
      c !! Z.to_nat i =
        Some (foldl (fun sum e => (sum + e.2 * ([1%float] !!! Z.to_nat e.1))%float)
                    0%float (row_entries A i)).
Proof.
  assert (valid_triplets duplicate_triplets 1 1) as Hvalid.
  { split; [lia|]. split; [lia|]. repeat constructor; simpl; lia. }
  assert (1 < INT_MAX) as Hint by (unfold INT_MAX; lia).
  split; [exact merge_sort_is_std_sort|]. split; [exact Hvalid|].
  split; [exact Hint|].
  exact (proj1 duplicates_not_merged merge_sort_triplets duplicate_triplets 1 1
           [1%float] [0%float] merge_sort_is_std_sort Hvalid Hint eq_refl eq_refl).
Defined.

(** C7.  For every valid triplet set with no triplet in row [i] from
    which the conversion builds a matrix ([nrows < INT_MAX]: the size
    [nrows + 1] of [row_ptr] is an [int]), the matrix that the conversion
    returns has [row_ptr[i] = row_ptr[i+1]],
    and both kernels (the parallel one under every run that OpenMP allows)
    return a vector whose entry [i] is [0.0], whatever the other rows
    hold. *)
Theorem empty_row_yields_zero sort triplets nrows ncols v c0 i :
  is_std_sort compareTriplets sort ->
  valid_triplets triplets nrows ncols ->
  nrows < INT_MAX ->
  0 <= i < nrows ->
  Forall (fun t => row t ≠ i) triplets ->
  Z.of_nat (length v) = ncols ->
  Z.of_nat (length c0) = nrows ->
  exists A p c,
    build sort triplets nrows ncols = Ok A /\
    row_ptr A !! Z.to_nat i = Some p /\
    row_ptr A !! Z.to_nat (i + 1) = Some p /\
    spmv_csr_sequential A v c0 = Ok c /\
    (forall icv run,
       omp_schedules icv nrows run -> spmv_csr_parallel run A v c0 = Ok c) /\
    c !! Z.to_nat i = Some 0%float.
Proof.
  intros Hsort Hvalid Hint Hi Hempty Hv Hc0.
  destruct (Hsort triplets) as [Hperm Hsorted].
  pose proof (valid_triplets_perm _ _ _ _ Hperm Hvalid) as Hvalid'.
  destruct (build_valid _ _ _ _ Hsort Hvalid Hint) as [Hbuild HA].
  assert (entries_before (sort triplets) (i + 1) = entries_before (sort triplets) i)
    as Hskip by (apply entries_before_skip; by rewrite Hperm).
  exists (csr_of_sorted (sort triplets) nrows ncols),
         (entries_before (sort triplets) i),
         (spec_multiply (csr_of_sorted (sort triplets) nrows ncols) v).
  split_and!.
  - done.
  - rewrite (built_row_ptr _ _ _ Hvalid') by lia. by rewrite Z2Nat.id by lia.
  - rewrite (built_row_ptr _ _ _ Hvalid') by lia.
    rewrite Z2Nat.id by lia. by rewrite Hskip.
  - by apply spmv_csr_sequential_spec.
  - intros icv run (team & _ & _ & _ & Hrun & _).
    by apply spmv_csr_parallel_spec.
  - unfold spec_multiply. rewrite list_lookup_fmap.
    change (rows (csr_of_sorted (sort triplets) nrows ncols)) with nrows.
    rewrite lookup_seqZ_lt by lia. simpl. rewrite Z.add_0_l, Z2Nat.id by lia.
    f_equal. unfold spec_row_sum.
    rewrite !(built_row_ptr_total _ _ _ Hvalid') by lia.
    rewrite !Z2Nat.id by lia. by rewrite Hskip, Z.sub_diag, seqZ_nil.
Qed.

Lemma empty_row_yields_zero_witness :
  is_std_sort compareTriplets merge_sort_triplets /\
  valid_triplets gap_triplets 3 2 /\
  3 < INT_MAX /\
  Forall (fun t => row t ≠ 1) gap_triplets /\
  exists A p c,
    build merge_sort_triplets gap_triplets 3 2 = Ok A /\
    row_ptr A !! Z.to_nat 1 = Some p /\
    row_ptr A !! Z.to_nat (1 + 1) = Some p /\
    spmv_csr_sequential A [1; 1]%float [9; 9; 9]%float = Ok c /\
    (forall icv run,
       omp_schedules icv 3 run ->
       spmv_csr_parallel run A [1; 1]%float [9; 9; 9]%float = Ok c) /\
    c !! Z.to_nat 1 = Some 0%float.
Proof.
  assert (valid_triplets gap_triplets 3 2) as Hvalid.
  { split; [lia|]. split; [lia|]. repeat constructor; simpl; lia. }
  assert (Forall (fun t => row t ≠ 1) gap_triplets) as Hgap
    by (repeat constructor; simpl; lia).
  assert (3 < INT_MAX) as Hint by (unfold INT_MAX; lia).
  split; [exact merge_sort_is_std_sort|]. split; [exact Hvalid|].
  split; [exact Hint|]. split; [exact Hgap|].
  exact (empty_row_yields_zero merge_sort_triplets gap_triplets 3 2
           [1; 1]%float [9; 9; 9]%float 1
           merge_sort_is_std_sort Hvalid Hint ltac:(lia) Hgap eq_refl eq_refl).
Defined.

(** C8.  Both kernels are deterministic and idempotent.  For every
    matrix [A] that satisfies the invariants and every [v] of length
    [cols A], any number of calls in a row of either kernel - the parallel
    one under whatever runs the OpenMP runtime chooses, a different one
    for each call if it likes - leaves [A] and [v] as they were and
    [c_output] holding one and the same vector, the one that the spec
    defines for [(A, v)], whatever [c_output] held before. *)
Theorem kernels_idempotent f st (n : nat) :
  spmv_kernel f ->
  csr_invariants (b_csr st) ->
  Z.of_nat (length (b_v_input st)) = cols (b_csr st) ->
  Z.of_nat (length (b_c_output st)) = rows (b_csr st) ->
  exists st',
    repeat_kernel f (Z.of_nat (S n)) st = Ok st' /\
    b_csr st' = b_csr st /\
    b_v_input st' = b_v_input st /\
    b_c_output st' = spec_multiply (b_csr st) (b_v_input st) /\
    n_calls (b_world st') = (S n + n_calls (b_world st))%nat.
Proof.
  intros Hf HA Hv Hc. eexists. split; [by apply repeat_kernel_spec|]. done.
Qed.

Lemma kernels_idempotent_witness :
  let st := mkBench scenario_csr [1; 1]%float [7; 7]%float [] (mkWorld 0 0 0 []) in
  let f := parallel_kernel example_env (mkIcv 4 omp_sched_dynamic 10) in
  spmv_kernel f /\
  csr_invariants (b_csr st) /\
  exists st',
    repeat_kernel f (Z.of_nat 3) st = Ok st' /\
    b_csr st' = b_csr st /\
    b_v_input st' = b_v_input st /\
    b_c_output st' = spec_multiply (b_csr st) (b_v_input st) /\
    n_calls (b_world st') = (3 + n_calls (b_world st))%nat.
Proof.
  assert (spmv_kernel (parallel_kernel example_env (mkIcv 4 omp_sched_dynamic 10))) as Hf
    by (constructor; exact example_env_conforming).
  assert (csr_invariants scenario_csr) as HA by compute_done.
  split; [exact Hf|]. split; [exact HA|].
  exact (kernels_idempotent _
           (mkBench scenario_csr [1; 1]%float [7; 7]%float [] (mkWorld 0 0 0 []))
           2 Hf HA eq_refl eq_refl).
Defined.

(** C9.  For every matrix [A] that satisfies the invariants (with
    [cols A >= 0]) and every number [N] of timed runs, the benchmark
    draws [cols A] numbers from the distribution on [-1000, 1000] and
    stores them, in the order in which they were drawn, as the input
    vector: a vector of length [cols A] whose entries lie within
    [-1000, 1000], as the distribution promises.  It then calls the kernel
    [1 + N] times on [A] and this vector, one call after the other: first
    the warm-up call, with no clock reading around it, then [N] calls with
    a clock reading before and after each; the output vector holds the
    product in the end; and it returns the [N] durations, one per timed
    run, as they were measured.  [main] runs the benchmark with
    [N = NUM_RUNS = 10]: on a well-formed matrix file it calls the kernel
    eleven times and prints the name of the matrix, the settings and the
    ten durations. *)
Theorem benchmark_runs :
  (forall env f (N : nat) A w,
     spmv_kernel f ->
     csr_invariants A ->
     0 <= cols A ->
     dist_conforming env ->
     exists st,
       benchmark env f (Z.of_nat N) A w = Ok st /\
       b_csr st = A /\
       b_v_input st = drawn env <$> seq (n_draws w) (Z.to_nat (cols A)) /\
       Z.of_nat (length (b_v_input st)) = cols A /\
       Forall in_range (b_v_input st) /\
       b_c_output st = spec_multiply A (b_v_input st) /\
       n_draws (b_world st) = (Z.to_nat (cols A) + n_draws w)%nat /\
       trace (b_world st) =
         trace w ++ replicate (Z.to_nat (cols A)) EvRandom ++ [EvKernel] ++
         mjoin (replicate N [EvWtime; EvKernel; EvWtime]) /\
       n_calls (b_world st) = (N + 1 + n_calls w)%nat /\
       length (b_times_ms st) = N /\
       b_times_ms st = durations env (n_ticks w) N) /\
  (forall sort env prog filename schedule_str arg3 arg4 kind chunk threads file triplets,
     is_std_sort compareTriplets sort ->
     omp_conforming env ->
     parse_schedule schedule_str = Some kind ->
     stoi arg3 = Some chunk -> stoi arg4 = Some threads ->
     file_system env filename = Some file ->
     0 <= mm_nnz file ->
     read_triplets (mm_nnz file) (mm_entries file) = Some triplets ->
     valid_triplets triplets (mm_rows file) (mm_cols file) ->
     mm_rows file < INT_MAX ->
     exists tr,
       main sort env [prog; filename; schedule_str; arg3; arg4] =
       (Return 0,
        tr ++ [EvCsv (extract_matrix_name (list_ascii_of_string filename))
                 schedule_str chunk threads (durations env 0 10)]) /\
       kernel_calls tr = 11%nat).
Proof.
  split.
  - intros env f N A w Hf HA Hcols Hdist.
    eexists. split; [by apply benchmark_spec|].
    simpl. split_and!; try done.
    + rewrite length_fmap, length_seq. lia.
    + apply Forall_fmap, Forall_forall. intros k _. by apply drawn_in_range.
    + lia.
    + unfold durations. by rewrite length_fmap, length_seq.
  - intros. by eapply main_runs_benchmark.
Qed.

Lemma benchmark_runs_witness :
  let f := parallel_kernel example_env (mkIcv 4 omp_sched_static 10) in
  spmv_kernel f /\
  csr_invariants scenario_csr /\
  0 <= cols scenario_csr /\
  dist_conforming example_env /\
  exists st,
    benchmark example_env f NUM_RUNS scenario_csr (mkWorld 0 0 0 []) = Ok st /\
    b_csr st = scenario_csr /\
    b_v_input st = [-1000; 1000]%float /\
    Z.of_nat (length (b_v_input st)) = cols scenario_csr /\
    Forall in_range (b_v_input st) /\
    b_c_output st = spec_multiply scenario_csr (b_v_input st) /\
    n_draws (b_world st) = 2%nat /\
    trace (b_world st) =
      replicate 2 EvRandom ++ [EvKernel] ++
      mjoin (replicate 10 [EvWtime; EvKernel; EvWtime]) /\
    n_calls (b_world st) = 11%nat /\
    length (b_times_ms st) = 10%nat /\
    b_times_ms st = durations example_env 0 10.
Proof.
  assert (spmv_kernel (parallel_kernel example_env (mkIcv 4 omp_sched_static 10))) as Hf
    by (constructor; exact example_env_conforming).
  assert (csr_invariants scenario_csr) as HA by compute_done.
  assert (0 <= cols scenario_csr) as Hcols by (simpl; lia).
  split; [exact Hf|]. split; [exact HA|].
  split; [exact Hcols|]. split; [exact example_env_dist|].
  exact (proj1 benchmark_runs example_env _ 10%nat scenario_csr
           (mkWorld 0 0 0 []) Hf HA Hcols example_env_dist).
Defined.



(** * Further properties of the code *)

(** ** The comparison of the triplets *)

(** X1.  [compareTriplets] is a strict weak ordering, as [std::sort]
    requires of its comparison: it is irreflexive and transitive, and
    being incomparable is transitive too; two triplets are incomparable
    exactly when they have the same row and the same column. *)
Theorem compareTriplets_strict_weak_order :
  (forall a, compareTriplets a a = false) /\
  (forall a b c,
     compareTriplets a b = true -> compareTriplets b c = true ->
     compareTriplets a c = true) /\
  (forall a b,
     compareTriplets a b = false /\ compareTriplets b a = false <->
     row a = row b /\ col a = col b) /\
  (forall a b c,
     compareTriplets a b = false -> compareTriplets b a = false ->
     compareTriplets b c = false -> compareTriplets c b = false ->
     compareTriplets a c = false /\ compareTriplets c a = false).
Proof.
  assert (forall a b, compareTriplets a b = true <->
            row a < row b \/ (row a = row b /\ col a < col b)) as Hlt.
  { intros a b. unfold compareTriplets.
    destruct (decide (row a < row b)); [split; [lia|done]|].
    destruct (decide (row a = row b)).
    - rewrite bool_decide_eq_true. lia.
    - split; [done|lia]. }
  assert (forall a b, compareTriplets a b = false <->
            ¬ (row a < row b \/ (row a = row b /\ col a < col b))) as Hge.
  { intros a b. rewrite <-Hlt. by destruct (compareTriplets a b). }
  split_and!.
  - intros a. apply Hge. lia.
  - intros a b c. rewrite !Hlt. lia.
  - intros a b. rewrite !Hge. lia.
  - intros a b c. rewrite !Hge. lia.
Qed.

(** ** The name of the matrix *)

Lemma find_last_of_None chars s :
  find_last_of chars s = None <-> Forall (fun c => c ∉ chars) s.
Proof.
  induction s as [|c s IH]; simpl; [by split; [constructor|]|].
  destruct (find_last_of chars s) as [pos|].
  - split; [done|]. intros Hall. apply Forall_cons in Hall as [_ Hall].
    by apply IH in Hall.
  - case_bool_decide as Hc.
    + split; [done|]. intros Hall. by apply Forall_cons in Hall as [? _].
    + split; [|done]. intros _. constructor; [done|]. by apply IH.
Qed.

Lemma find_last_of_last chars s1 c s2 :
  c ∈ chars -> Forall (fun c => c ∉ chars) s2 ->
  find_last_of chars (s1 ++ c :: s2) = Some (length s1).
Proof.
  intros Hc Hs2. apply find_last_of_None in Hs2.
  induction s1 as [|d s1 IH]; simpl.
  - by rewrite Hs2, bool_decide_eq_true_2.
  - by rewrite IH.
Qed.

Lemma find_last_of_Some chars s pos :
  find_last_of chars s = Some pos ->
  Forall (fun c => c ∉ chars) (drop (pos + 1) s).
Proof.
  revert pos. induction s as [|c s IH]; intros pos; simpl; [done|].
  destruct (find_last_of chars s) as [pos'|] eqn:Hs.
  - intros [= <-]. simpl. by apply IH.
  - case_bool_decide; [|done]. intros [= <-]. simpl.
    by apply find_last_of_None.
Qed.

Lemma erase_suffix n s :
  (n <= length s)%nat -> erase (length s - n) n s = take (length s - n) s.
Proof.
  intros Hn. unfold erase. rewrite drop_ge by lia. apply app_nil_r.
Qed.

(** The file name: the path without its directory part. *)
Lemma file_name_no_separator path :
  Forall (fun c => c ∉ separators)
    match find_last_of separators path with
    | None => path
    | Some pos => drop (pos + 1) path
    end.
Proof.
  destruct (find_last_of separators path) as [pos|] eqn:Hpos.
  - by apply find_last_of_Some.
  - by apply find_last_of_None.
Qed.

(** X2.  For a path that ends in a non-empty file name with the
    extension [.mtx], with or without directories before it (separated
    by [/] or [\]), [extract_matrix_name] returns the file name without
    the directories and without the extension. *)
Theorem extract_matrix_name_strips dir name :
  name ≠ [] ->
  Forall (fun c => c ∉ separators) name ->
  (dir = [] \/ exists d sep, dir = d ++ [sep] /\ sep ∈ separators) ->
  extract_matrix_name (dir ++ name ++ mtx_ext) = name.
Proof.
  intros Hname Hsep Hdir. unfold extract_matrix_name.
  assert (Forall (fun c => c ∉ separators) (name ++ mtx_ext)) as Hfile.
  { apply Forall_app. split; [done|].
    unfold mtx_ext, separators. repeat constructor; by compute_done. }
  assert (match find_last_of separators (dir ++ name ++ mtx_ext) with
          | None => dir ++ name ++ mtx_ext
          | Some pos => drop (pos + 1) (dir ++ name ++ mtx_ext)
          end = name ++ mtx_ext) as ->.
  { destruct Hdir as [->|(d & sep & -> & Hin)].
    - rewrite app_nil_l. by rewrite (proj2 (find_last_of_None _ _) Hfile).
    - rewrite <-app_assoc. simpl.
      rewrite find_last_of_last by done.
      rewrite Nat.add_1_r.
      change (d ++ sep :: name ++ mtx_ext) with (d ++ [sep] ++ (name ++ mtx_ext)).
      rewrite app_assoc. apply drop_app_length'.
      rewrite length_app. simpl. lia. }
  assert (length name > 0)%nat as Hlen by (destruct name; [done|simpl; lia]).
  rewrite erase_suffix by (rewrite length_app; lia).
  rewrite length_app.
  replace (length name + length mtx_ext - length mtx_ext)%nat with (length name) by lia.
  rewrite drop_app_length, take_app_length.
  rewrite decide_True; [done|]. split; [lia|]. by rewrite firstn_all.
Qed.

Lemma extract_matrix_name_strips_witness :
  ["b"; "c"; "s"]%char ≠ [] /\
  Forall (fun c => c ∉ separators) ["b"; "c"; "s"]%char /\
  extract_matrix_name (["/"; "h"; "/"]%char ++ ["b"; "c"; "s"]%char ++ mtx_ext) =
    ["b"; "c"; "s"]%char.
Proof.
  assert (["b"; "c"; "s"]%char ≠ []) as H1 by done.
  assert (Forall (fun c => c ∉ separators) ["b"; "c"; "s"]%char) as H2
    by (repeat constructor; by compute_done).
  split; [exact H1|]. split; [exact H2|].
  apply (extract_matrix_name_strips ["/"; "h"; "/"]%char ["b"; "c"; "s"]%char H1 H2).
  right. exists ["/"; "h"]%char, "/"%char. split; [done|]. by left.
Defined.

(** X3.  Whatever the path, the name that [extract_matrix_name] returns
    holds no [/] and no [\], and the path ends with it or with it and the
    extension [.mtx]. *)
Theorem extract_matrix_name_is_file_name path :
  Forall (fun c => c ∉ separators) (extract_matrix_name path) /\
  exists dir,
    path = dir ++ extract_matrix_name path \/
    path = dir ++ extract_matrix_name path ++ mtx_ext.
Proof.
  unfold extract_matrix_name.
  pose proof (file_name_no_separator path) as Hfile.
  assert (exists dir, path = dir ++
            match find_last_of separators path with
            | None => path
            | Some pos => drop (pos + 1) path
            end) as [dir Hdir].
  { destruct (find_last_of separators path) as [pos|].
    - exists (take (pos + 1) path). by rewrite take_drop.
    - by exists []. }
  revert Hfile Hdir.
  generalize (match find_last_of separators path with
              | None => path
              | Some pos => drop (pos + 1) path
              end).
  intros filename Hfile Hdir.
  destruct (decide _) as [[Hlen Hext]|_].
  - rewrite erase_suffix by lia. split.
    + rewrite <-(take_drop (length filename - length mtx_ext) filename) in Hfile.
      by apply Forall_app in Hfile as [? _].
    + exists dir. right. rewrite Hdir at 1. f_equal.
      rewrite <-(take_drop (length filename - length mtx_ext) filename) at 1.
      f_equal. rewrite <-Hext at 2. symmetry. apply take_ge.
      rewrite length_drop. lia.
  - split; [done|]. exists dir. by left.
Qed.

(** X4.  [extract_matrix_name] leaves the extension where the file name
    is nothing but the extension: a file called [.mtx], in whatever
    directory, keeps the name [.mtx].  A file name without the extension
    is returned as it is. *)
Theorem extract_matrix_name_keeps :
  (forall dir,
     dir = [] \/ (exists d sep, dir = d ++ [sep] /\ sep ∈ separators) ->
     extract_matrix_name (dir ++ mtx_ext) = mtx_ext) /\
  (forall name,
     Forall (fun c => c ∉ separators) name ->
     take (length mtx_ext) (drop (length name - length mtx_ext) name) ≠ mtx_ext ->
     extract_matrix_name name = name).
Proof.
  split.
  - intros dir Hdir. unfold extract_matrix_name.
    assert (Forall (fun c => c ∉ separators) mtx_ext) as Hext
      by (unfold mtx_ext, separators; repeat constructor; by compute_done).
    assert (match find_last_of separators (dir ++ mtx_ext) with
            | None => dir ++ mtx_ext
            | Some pos => drop (pos + 1) (dir ++ mtx_ext)
            end = mtx_ext) as ->.
    { destruct Hdir as [->|(d & sep & -> & Hin)].
      - rewrite app_nil_l. by rewrite (proj2 (find_last_of_None _ _) Hext).
      - rewrite <-app_assoc. simpl. rewrite find_last_of_last by done.
        rewrite Nat.add_1_r.
        change (d ++ sep :: mtx_ext) with (d ++ [sep] ++ mtx_ext).
        rewrite app_assoc. apply drop_app_length'.
        rewrite length_app. simpl. lia. }
    rewrite decide_False; [done|]. intros [Hlt _]. lia.
  - intros name Hname Hext. unfold extract_matrix_name.
    rewrite (proj2 (find_last_of_None _ _) Hname).
    rewrite decide_False; [done|]. by intros [_ ?].
Qed.

Lemma extract_matrix_name_keeps_witness :
  extract_matrix_name (["d"; "/"]%char ++ mtx_ext) = mtx_ext /\
  Forall (fun c => c ∉ separators) ["a"; "."; "t"; "x"; "t"]%char /\
  extract_matrix_name ["a"; "."; "t"; "x"; "t"]%char = ["a"; "."; "t"; "x"; "t"]%char.
Proof.
  assert (Forall (fun c => c ∉ separators) ["a"; "."; "t"; "x"; "t"]%char) as H
    by (repeat constructor; by compute_done).
  split.
  - apply (proj1 extract_matrix_name_keeps).
    right. exists ["d"]%char, "/"%char. split; [done|]. by left.
  - split; [exact H|].
    apply (proj2 extract_matrix_name_keeps _ H). by compute_done.
Defined.

(** ** The conversion: the row pointers and the order of the input *)

Lemma entries_before_succ l i :
  entries_before l (i + 1) - entries_before l i =
  Z.of_nat (length (filter (fun t => row t = i) l)).
Proof.
  unfold entries_before. induction l as [|t l IH]; [done|].
  rewrite !filter_cons.
  destruct (decide (row t < i + 1)), (decide (row t < i)), (decide (row t = i));
    simpl; lia.
Qed.

Lemma entries_before_one l :
  entries_before l 1 = Z.of_nat (length (filter (fun t => row t <= 0) l)).
Proof.
  unfold entries_before. induction l as [|t l IH]; [done|].
  rewrite !filter_cons.
  destruct (decide (row t < 1)), (decide (row t <= 0)); simpl; lia.
Qed.

(** X5.  For the inputs that the conversion accepts (a row count of at
    least -1 and below [INT_MAX], and no row index above it), whether
    valid or not, and for whatever order of the input and whatever sorting
    function: [row_ptr]
    has [rows + 1] slots, slot 0 holds 0 and slot [j] holds the number of
    triplets in the rows before [j]; so the slice of a row [i > 0] is as
    long as the number of triplets of row [i], and the slice of row 0
    holds the triplets of row 0 and those with a negative row index. *)
Theorem build_row_ptr_counts sort triplets nrows ncols :
  is_std_sort compareTriplets sort ->
  -1 <= nrows < INT_MAX ->
  Forall (fun t => row t <= Z.max 0 nrows) triplets ->
  exists A,
    build sort triplets nrows ncols = Ok A /\
    Z.of_nat (length (row_ptr A)) = nrows + 1 /\
    (forall j, 0 <= j <= nrows ->
       row_ptr A !! Z.to_nat j =
       Some (if decide (j = 0) then 0 else entries_before triplets j)) /\
    (forall i, 0 <= i < nrows ->
       row_ptr A !!! Z.to_nat (i + 1) - row_ptr A !!! Z.to_nat i =
       Z.of_nat (length (if decide (i = 0)
                         then filter (fun t => row t <= 0) triplets
                         else filter (fun t => row t = i) triplets))).
Proof.
  intros Hsort Hrows Hall. destruct (Hsort triplets) as [Hperm _].
  exists (csr_of_sorted (sort triplets) nrows ncols).
  split; [by apply build_closed_form|].
  assert (forall j, 0 <= j <= nrows ->
            row_ptr (csr_of_sorted (sort triplets) nrows ncols) !! Z.to_nat j =
            Some (if decide (j = 0) then 0 else entries_before triplets j)) as Hptr.
  { intros j Hj. simpl. rewrite row_ptr_upto_lookup by lia.
    rewrite Z2Nat.id by lia. f_equal.
    destruct (decide (j = 0)) as [->|Hne].
    - by rewrite decide_False by lia.
    - rewrite decide_True by lia. by apply entries_before_perm. }
  split; [|split; [done|]].
  - simpl. rewrite row_ptr_upto_length; lia.
  - intros i Hi.
    rewrite (list_lookup_total_correct _ _ _ (Hptr (i + 1) ltac:(lia))).
    rewrite (list_lookup_total_correct _ _ _ (Hptr i ltac:(lia))).
    rewrite (decide_False (P := i + 1 = 0)) by lia.
    destruct (decide (i = 0)) as [->|Hne].
    + rewrite Z.sub_0_r. apply entries_before_one.
    + apply entries_before_succ.
Qed.

Lemma build_row_ptr_counts_witness :
  is_std_sort compareTriplets merge_sort_triplets /\
  -1 <= 3 < INT_MAX /\
  Forall (fun t => row t <= Z.max 0 3) gap_triplets /\
  exists A,
    build merge_sort_triplets gap_triplets 3 2 = Ok A /\
    Z.of_nat (length (row_ptr A)) = 3 + 1 /\
    (forall j, 0 <= j <= 3 ->
       row_ptr A !! Z.to_nat j =
       Some (if decide (j = 0) then 0 else entries_before gap_triplets j)) /\
    (forall i, 0 <= i < 3 ->
       row_ptr A !!! Z.to_nat (i + 1) - row_ptr A !!! Z.to_nat i =
       Z.of_nat (length (if decide (i = 0)
                         then filter (fun t => row t <= 0) gap_triplets
                         else filter (fun t => row t = i) gap_triplets))).
Proof.
  assert (-1 <= 3 < INT_MAX) as H1 by (unfold INT_MAX; lia).
  assert (Forall (fun t => row t <= Z.max 0 3) gap_triplets) as H2
    by (repeat constructor; simpl; lia).
  split; [exact merge_sort_is_std_sort|]. split; [exact H1|]. split; [exact H2|].
  exact (build_row_ptr_counts merge_sort_triplets gap_triplets 3 2
           merge_sort_is_std_sort H1 H2).
Defined.

Lemma merge_sort_reversed_is_std_sort : is_std_sort compareTriplets merge_sort_reversed.
Proof.
  intros l. unfold merge_sort_reversed.
  destruct (merge_sort_is_std_sort (reverse l)) as [Hp Hs].
  split; [|done]. by rewrite Hp, reverse_Permutation.
Qed.

Lemma std_sort_perm_unique sort1 sort2 l1 l2 :
  is_std_sort compareTriplets sort1 -> is_std_sort compareTriplets sort2 ->
  l1 ≡ₚ l2 ->
  (forall a b, a ∈ l1 -> b ∈ l1 -> row a = row b -> col a = col b -> a = b) ->
  sort1 l1 = sort2 l2.
Proof.
  intros H1 H2 Hp Hl. destruct (H1 l1) as [Hp1 Hs1], (H2 l2) as [Hp2 Hs2].
  apply (StronglySorted_unique_strong (not_after compareTriplets));
    [|done|done|by rewrite Hp1, Hp2].
  intros a b Ha Hb. rewrite !not_after_spec. intros Hab Hba.
  apply Hl; [by rewrite <-Hp1|by rewrite Hp, <-Hp2|lia..].
Qed.

(** X6.  The matrix that the conversion builds does not depend on the
    order of the triplets in the input, nor on the sorting function that
    stands for [std::sort], as long as the triplets of the same position
    (row and column) are equal.  It does depend on them otherwise: for
    two triplets of the same position with different values, two sorting
    functions that both meet the contract of [std::sort] give different
    [values] arrays. *)
Theorem build_order_independent :
  (forall sort1 sort2 l1 l2 nrows ncols,
     is_std_sort compareTriplets sort1 -> is_std_sort compareTriplets sort2 ->
     l1 ≡ₚ l2 ->
     (forall a b, a ∈ l1 -> b ∈ l1 -> row a = row b -> col a = col b -> a = b) ->
     build sort1 l1 nrows ncols = build sort2 l2 nrows ncols) /\
  (is_std_sort compareTriplets merge_sort_triplets /\
   is_std_sort compareTriplets merge_sort_reversed /\
   build merge_sort_triplets conflicting_triplets 1 1 ≠
   build merge_sort_reversed conflicting_triplets 1 1).
Proof.
  split.
  - intros sort1 sort2 l1 l2 nrows ncols H1 H2 Hp Hl.
    unfold build, coo_to_csr.
    rewrite (std_sort_perm_unique sort1 sort2 l1 l2) by done.
    by rewrite (Permutation_length Hp).
  - split; [exact merge_sort_is_std_sort|].
    split; [exact merge_sort_reversed_is_std_sort|].
    intros Heq.
    apply (f_equal (fun r => match r with
                             | Ok A => match values A with
                                       | x :: _ => PrimFloat.ltb x 1.5
                                       | [] => false
                                       end
                             | Err _ => false
                             end)) in Heq.
    vm_compute in Heq. discriminate.
Qed.

Lemma build_order_independent_witness :
  is_std_sort compareTriplets merge_sort_triplets /\
  is_std_sort compareTriplets merge_sort_reversed /\
  gap_triplets ≡ₚ reverse gap_triplets /\
  build merge_sort_triplets gap_triplets 3 2 =
  build merge_sort_reversed (reverse gap_triplets) 3 2.
Proof.
  assert (gap_triplets ≡ₚ reverse gap_triplets) as Hp
    by (symmetry; apply reverse_Permutation).
  split; [exact merge_sort_is_std_sort|].
  split; [exact merge_sort_reversed_is_std_sort|].
  split; [exact Hp|].
  apply (proj1 build_order_independent merge_sort_triplets merge_sort_reversed
           gap_triplets (reverse gap_triplets) 3 2
           merge_sort_is_std_sort merge_sort_reversed_is_std_sort Hp).
  intros a b Ha Hb Hr Hc. unfold gap_triplets in Ha, Hb.
  apply elem_of_cons in Ha as [-> | Ha]; apply elem_of_cons in Hb as [-> | Hb];
    try done.
  - apply list_elem_of_singleton in Hb as ->. simpl in Hr. lia.
  - apply list_elem_of_singleton in Ha as ->. simpl in Hr. lia.
  - apply list_elem_of_singleton in Ha as ->.
    by apply list_elem_of_singleton in Hb as ->.
Defined.

(** ** The kernels on other buffers *)

Lemma for_each_spmv_row_frame A v l c :
  csr_invariants A -> Z.of_nat (length v) = cols A ->
  Forall (fun i => 0 <= i < rows A) l -> rows A <= Z.of_nat (length c) ->
  for_each (spmv_row A v) l c = Ok (write_rows (spec_row_sum A v) l c).
Proof.
  intros HA Hv. revert c. induction l as [|i l IH]; intros c Hl Hc; simpl; [done|].
  apply Forall_cons in Hl as [Hi Hl].
  unfold spmv_row at 1. rewrite row_sum_spec by done. simpl.
  rewrite vec_write_Ok by lia. simpl.
  rewrite IH; [done..|]. by rewrite length_insert.
Qed.

Lemma write_rows_all_frame {T} (g : Z -> T) l n c :
  l ≡ₚ seqZ 0 n -> 0 <= n <= Z.of_nat (length c) ->
  write_rows g l c = (g <$> seqZ 0 n) ++ drop (Z.to_nat n) c.
Proof.
  intros Hl Hn. apply list_eq. intros j.
  destruct (decide (j < length c)%nat) as [Hj|Hj].
  - rewrite write_rows_lookup; [|by rewrite Hl; apply Forall_seqZ; lia|done].
    destruct (decide (Z.of_nat j < n)) as [Hjn|Hjn].
    + rewrite lookup_app_l by (rewrite length_fmap, length_seqZ; lia).
      rewrite list_lookup_fmap, lookup_seqZ_lt by lia. simpl.
      case_decide as Hin; [done|].
      destruct Hin. rewrite Hl. apply elem_of_seqZ. lia.
    + rewrite lookup_app_r by (rewrite length_fmap, length_seqZ; lia).
      rewrite length_fmap, length_seqZ, lookup_drop.
      case_decide as Hin.
      * rewrite Hl in Hin. apply elem_of_seqZ in Hin. lia.
      * f_equal. lia.
  - rewrite !lookup_ge_None_2; [done|..].
    + rewrite length_app, length_fmap, length_seqZ, length_drop. lia.
    + rewrite write_rows_length. lia.
Qed.

(** X7.  The kernels write the first [rows] slots of the output buffer
    and nothing else: on a buffer with more than [rows] slots, both return
    the product in the first [rows] slots and leave the slots behind them
    as they were. *)
Theorem spmv_kernels_frame A v c :
  csr_invariants A ->
  Z.of_nat (length v) = cols A ->
  rows A <= Z.of_nat (length c) ->
  spmv_csr_sequential A v c = Ok (spec_multiply A v ++ drop (Z.to_nat (rows A)) c) /\
  forall icv run,
    omp_schedules icv (rows A) run ->
    spmv_csr_parallel run A v c = Ok (spec_multiply A v ++ drop (Z.to_nat (rows A)) c).
Proof.
  intros HA Hv Hc. pose proof (csr_invariants_rows A HA) as Hrows.
  unfold spec_multiply. split.
  - unfold spmv_csr_sequential. rewrite for_int_for_each, Z.sub_0_r.
    rewrite for_each_spmv_row_frame; [|done|done|apply Forall_seqZ; lia|done].
    by rewrite (write_rows_all_frame _ _ (rows A)).
  - intros icv run (team & _ & _ & _ & Hrun & _). unfold spmv_csr_parallel.
    rewrite for_each_spmv_row_frame;
      [|done|done|by rewrite Hrun; apply Forall_seqZ; lia|done].
    by rewrite (write_rows_all_frame _ _ (rows A)).
Qed.

Lemma spmv_kernels_frame_witness :
  csr_invariants scenario_csr /\
  spmv_csr_sequential scenario_csr [1; 1]%float [7; 7; 8; 9]%float =
    Ok (spec_multiply scenario_csr [1; 1]%float ++ [8; 9]%float) /\
  forall icv run,
    omp_schedules icv 2 run ->
    spmv_csr_parallel run scenario_csr [1; 1]%float [7; 7; 8; 9]%float =
      Ok (spec_multiply scenario_csr [1; 1]%float ++ [8; 9]%float).
Proof.
  assert (csr_invariants scenario_csr) as HA by compute_done.
  split; [exact HA|].
  apply (spmv_kernels_frame scenario_csr [1; 1]%float [7; 7; 8; 9]%float HA);
    simpl; lia.
Defined.

(** X8.  Every iteration of the row loop writes the slot of its own row
    and no other: after the iterations of any run over rows of the matrix
    (some rows, in any order, also more than once), the slot of every row
    of the run holds the sum of that row and every other slot of the
    buffer holds what it held before.  So the iterations of different
    rows do not write to the same slot, and at any moment of a run the
    rows that are done hold their final values. *)
Theorem spmv_rows_written A v c (run : omp_run) :
  csr_invariants A ->
  Z.of_nat (length v) = cols A ->
  rows A <= Z.of_nat (length c) ->
  Forall (fun e => 0 <= e.2 < rows A) run ->
  exists c',
    spmv_csr_parallel run A v c = Ok c' /\
    length c' = length c /\
    forall j : nat, (j < length c)%nat ->
      c' !! j = if decide (Z.of_nat j ∈ run.*2)
                then Some (spec_row_sum A v (Z.of_nat j)) else c !! j.
Proof.
  intros HA Hv Hc Hrun.
  assert (Forall (fun i => 0 <= i < rows A) run.*2) as Hrows.
  { apply Forall_fmap. by eapply Forall_impl; [exact Hrun|]. }
  exists (write_rows (spec_row_sum A v) run.*2 c). split; [|split].
  - by apply for_each_spmv_row_frame.
  - apply write_rows_length.
  - intros j Hj. apply write_rows_lookup; [|done].
    by eapply Forall_impl; [exact Hrows|]; intros i ?; simpl in *; lia.
Qed.

Lemma spmv_rows_written_witness :
  csr_invariants scenario_csr /\
  Forall (fun e => 0 <= e.2 < rows scenario_csr) [(3%nat, 1)] /\
  exists c',
    spmv_csr_parallel [(3%nat, 1)] scenario_csr [1; 1]%float [7; 7]%float = Ok c' /\
    length c' = 2%nat /\
    forall j : nat, (j < 2)%nat ->
      c' !! j = if decide (Z.of_nat j ∈ [(3%nat, 1)].*2)
                then Some (spec_row_sum scenario_csr [1; 1]%float (Z.of_nat j))
                else [7; 7]%float !! j.
Proof.
  assert (csr_invariants scenario_csr) as HA by compute_done.
  assert (Forall (fun e : nat * Z => 0 <= e.2 < rows scenario_csr) [(3%nat, 1)]) as Hrun
    by (repeat constructor; simpl; lia).
  split; [exact HA|]. split; [exact Hrun|].
  apply (spmv_rows_written scenario_csr [1; 1]%float [7; 7]%float [(3%nat, 1)] HA);
    [simpl; lia..|exact Hrun].
Defined.

(** *** Faults *)

Lemma for_each_fault {S} (P : S -> Prop) (body : Z -> S -> result S) l s i e :
  P s -> i ∈ l ->
  (forall j s1 s2, P s1 -> body j s1 = Ok s2 -> P s2) ->
  (forall s1, P s1 -> body i s1 = Err e) ->
  (forall j s1 e', body j s1 = Err e' -> e' = e) ->
  for_each body l s = Err e.
Proof.
  intros Hs Hin Hpres Hi Hkind. revert s Hs.
  induction l as [|j l IH]; intros s Hs; [by apply elem_of_nil in Hin|].
  simpl. destruct (decide (j = i)) as [->|Hne].
  - by rewrite Hi.
  - apply elem_of_cons in Hin as [?|Hin]; [done|].
    destruct (body j s) as [s2|e'] eqn:Hb; simpl.
    + apply IH; [done|]. by eapply Hpres.
    + f_equal. by eapply Hkind.
Qed.

Lemma vec_read_fault {T} (v : list T) i e : vec_read v i = Err e -> e = OutOfBounds.
Proof.
  unfold vec_read. destruct (decide (0 <= i)); [|by intros [= <-]].
  destruct (v !! Z.to_nat i); [done|by intros [= <-]].
Qed.

Lemma vec_write_fault {T} (v : list T) i x e :
  vec_write v i x = Err e -> e = OutOfBounds.
Proof. unfold vec_write. destruct (decide _); [done|by intros [= <-]]. Qed.

Lemma for_each_fault_kind {S} (body : Z -> S -> result S) l s e e0 :
  (forall j s1 e', body j s1 = Err e' -> e' = e0) ->
  for_each body l s = Err e -> e = e0.
Proof.
  intros Hkind. revert s. induction l as [|j l IH]; intros s; simpl; [done|].
  destruct (body j s) as [s2|e'] eqn:Hb; simpl.
  - apply IH.
  - intros [= <-]. by eapply Hkind.
Qed.

(** One step of the inner loop. *)
Lemma row_sum_step_fault A v j sum e :
  (let* a := vec_read (values A) j in
   let* cj := vec_read (col_ind A) j in
   let* x := vec_read v cj in
   Ok (sum + a * x)%float) = Err e -> e = OutOfBounds.
Proof.
  destruct (vec_read (values A) j) as [a|e1] eqn:H1; simpl;
    [|intros [= <-]; by eapply vec_read_fault].
  destruct (vec_read (col_ind A) j) as [cj|e2] eqn:H2; simpl;
    [|intros [= <-]; by eapply vec_read_fault].
  destruct (vec_read v cj) as [x|e3] eqn:H3; simpl;
    [done|intros [= <-]; by eapply vec_read_fault].
Qed.

Lemma row_sum_fault A v i e : row_sum A v i = Err e -> e = OutOfBounds.
Proof.
  unfold row_sum.
  destruct (vec_read (row_ptr A) i) as [a|e1] eqn:H1; simpl;
    [|intros [= <-]; by eapply vec_read_fault].
  destruct (vec_read (row_ptr A) (i + 1)) as [b|e2] eqn:H2; simpl;
    [|intros [= <-]; by eapply vec_read_fault].
  rewrite for_int_for_each. apply for_each_fault_kind.
  intros j sum e'. apply row_sum_step_fault.
Qed.

Lemma spmv_row_fault A v i c e : spmv_row A v i c = Err e -> e = OutOfBounds.
Proof.
  unfold spmv_row. destruct (row_sum A v i) as [sum|e1] eqn:H1; simpl.
  - apply vec_write_fault.
  - intros [= <-]. by eapply row_sum_fault.
Qed.

Lemma spmv_row_length A v i c c' :
  spmv_row A v i c = Ok c' -> length c' = length c.
Proof.
  unfold spmv_row. destruct (row_sum A v i) as [sum|e1]; simpl; [|done].
  unfold vec_write. destruct (decide _); [|done].
  intros [= <-]. apply length_insert.
Qed.

(** X9.  The kernels do not check the size of the output buffer: on a
    buffer with fewer than [rows] slots both run out of its bounds,
    whatever the matrix and the input vector are, and whatever the
    schedule. *)
Theorem spmv_output_too_short A v c :
  Z.of_nat (length c) < rows A ->
  spmv_csr_sequential A v c = Err OutOfBounds /\
  forall icv run,
    omp_schedules icv (rows A) run ->
    spmv_csr_parallel run A v c = Err OutOfBounds.
Proof.
  intros Hc.
  assert (forall l, Z.of_nat (length c) ∈ l ->
            for_each (spmv_row A v) l c = Err OutOfBounds) as Hfault.
  { intros l Hin.
    apply (for_each_fault (fun s => length s = length c) _ _ _ (Z.of_nat (length c)));
      [done|done|..].
    - intros j s1 s2 Hs1 Hb. by rewrite (spmv_row_length _ _ _ _ _ Hb).
    - intros s1 Hs1. unfold spmv_row.
      destruct (row_sum A v (Z.of_nat (length c))) as [sum|e] eqn:Hsum; simpl.
      + apply vec_write_Err. lia.
      + f_equal. by eapply row_sum_fault.
    - intros j s1 e'. apply spmv_row_fault. }
  split.
  - unfold spmv_csr_sequential. rewrite for_int_for_each.
    apply Hfault, elem_of_seqZ. lia.
  - intros icv run (team & _ & _ & _ & Hrun & _). unfold spmv_csr_parallel.
    apply Hfault. rewrite Hrun. apply elem_of_seqZ. lia.
Qed.

Lemma spmv_output_too_short_witness :
  Z.of_nat (length [0%float]) < rows scenario_csr /\
  spmv_csr_sequential scenario_csr [1; 1]%float [0%float] = Err OutOfBounds /\
  forall icv run,
    omp_schedules icv (rows scenario_csr) run ->
    spmv_csr_parallel run scenario_csr [1; 1]%float [0%float] = Err OutOfBounds.
Proof.
  assert (Z.of_nat (length [0%float]) < rows scenario_csr) as H by (simpl; lia).
  split; [exact H|].
  exact (spmv_output_too_short scenario_csr [1; 1]%float [0%float] H).
Defined.

(** X10.  The kernels do not check the column indices against the input
    vector: when some row [i] of the matrix has, at a position [k] of its
    slice, a column index outside of the input vector, both kernels run
    out of bounds, whatever the schedule. *)
Theorem spmv_column_out_of_range A v c i a b k cj :
  0 <= i < rows A ->
  row_ptr A !! Z.to_nat i = Some a ->
  row_ptr A !! Z.to_nat (i + 1) = Some b ->
  0 <= k -> a <= k < b ->
  col_ind A !! Z.to_nat k = Some cj ->
  ¬ (0 <= cj < Z.of_nat (length v)) ->
  spmv_csr_sequential A v c = Err OutOfBounds /\
  forall icv run,
    omp_schedules icv (rows A) run ->
    spmv_csr_parallel run A v c = Err OutOfBounds.
Proof.
  intros Hi Ha Hb Hk0 Hk Hcj Hout.
  assert (row_sum A v i = Err OutOfBounds) as Hrow.
  { unfold row_sum.
    rewrite (proj2 (vec_read_Ok (row_ptr A) i a)) by (split; [lia|done]). simpl.
    rewrite (proj2 (vec_read_Ok (row_ptr A) (i + 1) b)) by (split; [lia|done]). simpl.
    rewrite for_int_for_each.
    apply (for_each_fault (fun _ => True) _ _ _ k); [done| |done|..].
    - apply elem_of_seqZ. lia.
    - intros sum _.
      destruct (vec_read (values A) k) as [x|e] eqn:Hx; simpl;
        [|f_equal; by eapply vec_read_fault].
      rewrite (proj2 (vec_read_Ok (col_ind A) k cj)) by done. simpl.
      destruct (vec_read v cj) as [y|e] eqn:Hy; simpl;
        [|f_equal; by eapply vec_read_fault].
      apply vec_read_Ok in Hy as [? Hy]. apply lookup_lt_Some in Hy. lia.
    - intros j sum e'. apply row_sum_step_fault. }
  assert (forall l, i ∈ l -> for_each (spmv_row A v) l c = Err OutOfBounds) as Hfault.
  { intros l Hin.
    apply (for_each_fault (fun _ => True) _ _ _ i); [done|done|done|..].
    - intros s1 _. unfold spmv_row. by rewrite Hrow.
    - intros j s1 e'. apply spmv_row_fault. }
  split.
  - unfold spmv_csr_sequential. rewrite for_int_for_each.
    apply Hfault, elem_of_seqZ. lia.
  - intros icv run (team & _ & _ & _ & Hrun & _). unfold spmv_csr_parallel.
    apply Hfault. rewrite Hrun. apply elem_of_seqZ. lia.
Qed.

Lemma spmv_column_out_of_range_witness :
  ¬ (0 <= 1 < Z.of_nat (length [1%float])) /\
  spmv_csr_sequential scenario_csr [1%float] [0; 0]%float = Err OutOfBounds /\
  forall icv run,
    omp_schedules icv (rows scenario_csr) run ->
    spmv_csr_parallel run scenario_csr [1%float] [0; 0]%float = Err OutOfBounds.
Proof.
  assert (¬ (0 <= 1 < Z.of_nat (length [1%float]))) as H by (simpl; lia).
  split; [exact H|].
  apply (spmv_column_out_of_range scenario_csr [1%float] [0; 0]%float 1 2 3 2 1);
    [simpl; lia|reflexivity|reflexivity|lia|lia|reflexivity|exact H].
Defined.

(** ** From the file to the matrix *)

Lemma filter_fmap_pre {X Y} (f : X -> Y) (P : Y -> Prop) (Q : X -> Prop)
    `{!forall y, Decision (P y)} `{!forall x, Decision (Q x)} (l : list X) :
  (forall x, P (f x) <-> Q x) ->
  filter P (f <$> l) = f <$> filter Q l.
Proof.
  intros HPQ. induction l as [|x l IH]; [done|].
  rewrite fmap_cons, !filter_cons.
  destruct (decide (P (f x))) as [HP|HP], (decide (Q x)) as [HQ|HQ].
  - by rewrite fmap_cons, IH.
  - by apply HPQ in HP.
  - by apply HPQ in HQ.
  - done.
Qed.

(** X11.  For a Matrix Market file whose size line gives a positive
    number of rows below [INT_MAX], a positive number of columns and a
    number of entries that the file has, and whose first [nnz] entries
    have their 1-based indices within the matrix, [main] reads [nnz]
    triplets and builds a matrix with the
    CSR invariants whose row [i] holds exactly the entries of the line
    [i + 1] of the file, each with its column index lowered by one and its
    value unchanged; what the file holds behind its first [nnz] entries is
    not read. *)
Theorem matrix_market_to_csr sort file :
  is_std_sort compareTriplets sort ->
  0 < mm_rows file < INT_MAX -> 0 < mm_cols file <= INT_MAX ->
  0 <= mm_nnz file <= Z.of_nat (length (mm_entries file)) ->
  Forall (fun e => 1 <= e.1.1 <= mm_rows file /\ 1 <= e.1.2 <= mm_cols file)
         (take (Z.to_nat (mm_nnz file)) (mm_entries file)) ->
  exists triplets A,
    read_triplets (mm_nnz file) (mm_entries file) = Some triplets /\
    coo_to_csr sort triplets (mm_rows file) (mm_cols file) (mm_nnz file) = Ok A /\
    csr_invariants A /\
    rows A = mm_rows file /\ cols A = mm_cols file /\ nnz A = mm_nnz file /\
    forall i, 0 <= i < mm_rows file ->
      row_entries A i ≡ₚ
        (fun e => (e.1.2 - 1, e.2)) <$>
          filter (fun e => e.1.1 = i + 1)
                 (take (Z.to_nat (mm_nnz file)) (mm_entries file)).
Proof.
  intros Hsort [Hrows Hint] [Hcols Hcint] Hnnz Hall.
  set (read := take (Z.to_nat (mm_nnz file)) (mm_entries file)) in *.
  set (triplets := (fun e => mkTriplet (e.1.1 - 1) (e.1.2 - 1) e.2) <$> read).
  assert (read_triplets (mm_nnz file) (mm_entries file) = Some triplets) as Hread.
  { unfold read_triplets. rewrite decide_True by lia. f_equal.
    apply Forall_fmap_ext_1. eapply Forall_impl; [exact Hall|].
    intros e He. cbn beta in He. by rewrite !int_sub_id by int_lia. }
  assert (Z.of_nat (length triplets) = mm_nnz file) as Hlen.
  { unfold triplets, read. rewrite length_fmap, length_take. lia. }
  assert (valid_triplets triplets (mm_rows file) (mm_cols file)) as Hvalid.
  { split; [done|]. split; [done|]. unfold triplets. apply Forall_fmap.
    eapply Forall_impl; [exact Hall|]. intros e He. cbn beta in He. simpl. lia. }
  destruct (Hsort triplets) as [Hperm Hsorted].
  pose proof (valid_triplets_perm _ _ _ _ Hperm Hvalid) as Hvalid'.
  destruct (build_valid _ _ _ _ Hsort Hvalid Hint) as [Hbuild HA].
  exists triplets, (csr_of_sorted (sort triplets) (mm_rows file) (mm_cols file)).
  split; [done|]. split; [by rewrite <-Hlen|]. split; [done|].
  split; [done|]. split; [done|]. split; [simpl; by rewrite Hperm|].
  intros i Hi. rewrite (built_row_entries _ _ _ Hvalid') by done.
  rewrite row_slice_filter, Hperm by done. unfold triplets.
  rewrite (filter_fmap_pre _ _ (fun e => e.1.1 = i + 1)) by (intros e; simpl; lia).
  by rewrite <-list_fmap_compose.
Qed.

Lemma matrix_market_to_csr_witness :
  let file := mkMtx 2 2 2 [(1, 1, 1%float); (2, 2, 3%float); (9, 9, 9%float)] in
  is_std_sort compareTriplets merge_sort_triplets /\
  0 < mm_rows file < INT_MAX /\ 0 < mm_cols file <= INT_MAX /\
  0 <= mm_nnz file <= Z.of_nat (length (mm_entries file)) /\
  Forall (fun e => 1 <= e.1.1 <= mm_rows file /\ 1 <= e.1.2 <= mm_cols file)
         (take (Z.to_nat (mm_nnz file)) (mm_entries file)) /\
  exists triplets A,
    read_triplets (mm_nnz file) (mm_entries file) = Some triplets /\
    coo_to_csr merge_sort_triplets triplets (mm_rows file) (mm_cols file)
      (mm_nnz file) = Ok A /\
    csr_invariants A /\
    rows A = mm_rows file /\ cols A = mm_cols file /\ nnz A = mm_nnz file /\
    forall i, 0 <= i < mm_rows file ->
      row_entries A i ≡ₚ
        (fun e => (e.1.2 - 1, e.2)) <$>
          filter (fun e => e.1.1 = i + 1)
                 (take (Z.to_nat (mm_nnz file)) (mm_entries file)).
Proof.
  intros file.
  assert (0 < mm_rows file < INT_MAX) as H1 by (unfold INT_MAX; simpl; lia).
  assert (0 < mm_cols file <= INT_MAX) as H2 by (unfold INT_MAX; simpl; lia).
  assert (0 <= mm_nnz file <= Z.of_nat (length (mm_entries file))) as H3
    by (simpl; lia).
  assert (Forall (fun e => 1 <= e.1.1 <= mm_rows file /\ 1 <= e.1.2 <= mm_cols file)
            (take (Z.to_nat (mm_nnz file)) (mm_entries file))) as H4
    by (repeat constructor; simpl; lia).
  split; [exact merge_sort_is_std_sort|]. split; [exact H1|]. split; [exact H2|].
  split; [exact H3|]. split; [exact H4|].
  exact (matrix_market_to_csr merge_sort_triplets file merge_sort_is_std_sort
           H1 H2 H3 H4).
Defined.

(** ** The outcomes of [main] *)

Lemma for_each_invariant {S} (body : Z -> S -> result S) (R : nat -> S -> Prop)
    lo (n : nat) s s' :
  R 0%nat s ->
  (forall (k : nat) s1 s2,
     (k < n)%nat -> R k s1 -> body (lo + Z.of_nat k) s1 = Ok s2 ->
     R (Datatypes.S k) s2) ->
  for_each body (seqZ lo (Z.of_nat n)) s = Ok s' -> R n s'.
Proof.
  intros H0. revert s'. induction n as [|n IH]; intros s' Hstep.
  { by intros [= <-]. }
  rewrite seqZ_S, for_each_app.
  destruct (for_each body (seqZ lo (Z.of_nat n)) s) as [s1|e] eqn:Hloop;
    cbn [bind for_each]; [|done].
  destruct (body (lo + Z.of_nat n) s1) as [s2|e] eqn:Hbody; cbn [bind]; [|done].
  intros [= <-]. apply (Hstep n s1); [lia| |done].
  apply IH; [|done]. intros k sa sb Hk. apply Hstep. lia.
Qed.

(** What one run of the timed loop does when it succeeds, whatever the
    kernel is. *)
Lemma timed_step_success env f run st st' :
  timed_step env f run st = Ok st' ->
  0 <= run < Z.of_nat (length (b_times_ms st)) /\
  b_times_ms st' =
    <[Z.to_nat run :=
        ((wall_clock env (S (n_ticks (b_world st))) -
          wall_clock env (n_ticks (b_world st))) * 1000)%float]> (b_times_ms st) /\
  n_ticks (b_world st') = S (S (n_ticks (b_world st))) /\
  trace (b_world st') = trace (b_world st) ++ [EvWtime; EvKernel; EvWtime].
Proof.
  unfold timed_step, omp_get_wtime, call_kernel.
  cbn [b_csr b_v_input b_c_output b_times_ms b_world n_draws n_ticks n_calls trace].
  destruct (f _ _ _ _) as [c|e]; cbn [bind]; [|done].
  cbn [b_csr b_v_input b_c_output b_times_ms b_world n_draws n_ticks n_calls trace].
  unfold vec_write. destruct (decide _) as [Hrun|]; cbn [bind]; [|done].
  intros [= <-].
  cbn [b_csr b_v_input b_c_output b_times_ms b_world n_draws n_ticks n_calls trace].
  split; [done|]. split; [done|]. split; [done|].
  by rewrite <-!app_assoc.
Qed.

Lemma timed_loop_success env f st st' (n : nat) :
  b_times_ms st = replicate n 0%float ->
  for_each (timed_step env f) (seqZ 0 (Z.of_nat n)) st = Ok st' ->
  b_times_ms st' = durations env (n_ticks (b_world st)) n /\
  trace (b_world st') =
    trace (b_world st) ++ mjoin (replicate n [EvWtime; EvKernel; EvWtime]).
Proof.
  intros Ht Hloop.
  pose proof (for_each_invariant (timed_step env f)
    (fun k s =>
       b_times_ms s = durations env (n_ticks (b_world st)) k ++
                      replicate (n - k) 0%float /\
       n_ticks (b_world s) = (2 * k + n_ticks (b_world st))%nat /\
       trace (b_world s) =
         trace (b_world st) ++ mjoin (replicate k [EvWtime; EvKernel; EvWtime]))
    0 n st st') as Hinv.
  destruct Hinv as (Htimes & _ & Htrace); [| |done|].
  - unfold durations. simpl. by rewrite Nat.sub_0_r, app_nil_r.
  - intros k s1 s2 Hk (Ht1 & Hn1 & Htr1) Hstep.
    apply timed_step_success in Hstep as (_ & Ht2 & Hn2 & Htr2).
    split; [|split].
    + rewrite Ht2, Ht1, Hn1, Z.add_0_l, Nat2Z.id.
      replace (n - k)%nat with (S (n - S k)) by lia.
      rewrite insert_snoc_replicate_at
        by (unfold durations; by rewrite length_fmap, length_seq).
      unfold durations. rewrite seq_S, fmap_app. cbn [app fmap list_fmap].
      replace (n_ticks (b_world st) + 2 * (0 + k) + 1)%nat
        with (S (2 * k + n_ticks (b_world st))) by lia.
      replace (n_ticks (b_world st) + 2 * (0 + k))%nat
        with (2 * k + n_ticks (b_world st))%nat by lia.
      done.
    + rewrite Hn2, Hn1. lia.
    + rewrite Htr2, Htr1, replicate_S_end, join_app. cbn [mjoin list_join app].
      by rewrite <-!app_assoc.
  - rewrite Htimes, Nat.sub_diag. split; [apply app_nil_r|done].
Qed.

(** What the benchmark has done when it succeeds, whatever the kernel,
    the matrix and the environment are. *)
Lemma benchmark_success env f (n : nat) A w st :
  benchmark env f (Z.of_nat n) A w = Ok st ->
  b_times_ms st = durations env (n_ticks w) n /\
  trace (b_world st) =
    trace w ++ replicate (Z.to_nat (cols A)) EvRandom ++ [EvKernel] ++
    mjoin (replicate n [EvWtime; EvKernel; EvWtime]).
Proof.
  unfold benchmark, vec_alloc.
  destruct (decide (0 <= cols A)) as [Hcols|]; cbn [bind]; [|done].
  rewrite for_int_for_each, Z.sub_0_r, random_loop_cols by done.
  cbn [bind b_csr b_v_input b_c_output b_times_ms b_world n_draws n_ticks n_calls trace].
  destruct (decide (0 <= rows A)) as [Hrows|]; cbn [bind]; [|done].
  unfold call_kernel.
  cbn [b_csr b_v_input b_c_output b_times_ms b_world n_draws n_ticks n_calls trace].
  destruct (f _ _ _ _) as [c|e]; cbn [bind]; [|done].
  cbn [b_csr b_v_input b_c_output b_times_ms b_world n_draws n_ticks n_calls trace].
  rewrite decide_True by lia. cbn [bind].
  rewrite for_int_for_each, Z.sub_0_r, Nat2Z.id. intros Hloop.
  apply timed_loop_success in Hloop as [Htimes Htrace]; [|done].
  cbn [b_world n_ticks trace] in Htimes, Htrace.
  split; [done|]. rewrite Htrace. by rewrite <-!app_assoc.
Qed.

(** The conversion leaves the number of columns as [main] has read it. *)
Lemma for_each_preserves {S} (P : S -> Prop) (body : Z -> S -> result S) l s s' :
  P s ->
  (forall i s1 s2, P s1 -> body i s1 = Ok s2 -> P s2) ->
  for_each body l s = Ok s' -> P s'.
Proof.
  intros Hs Hbody. revert s Hs. induction l as [|i l IH]; intros s Hs; simpl.
  - by intros [= <-].
  - destruct (body i s) as [s1|e] eqn:Hb; simpl; [|done].
    apply IH. by eapply Hbody.
Qed.

Lemma skip_rows_cols i r current_row csr st :
  skip_rows i r current_row csr = Ok st -> cols st.2 = cols csr.
Proof.
  remember (Z.to_nat (r - current_row)) as n eqn:Hn.
  revert current_row csr Hn.
  induction n as [|n IH]; intros cur csr Hn; rewrite skip_rows_step.
  - rewrite decide_False by lia. by intros [= <-].
  - rewrite decide_True by lia.
    destruct (vec_write _ _ _) as [rp|e]; simpl; [|done].
    intros Hrec. apply IH in Hrec; [done|lia].
Qed.

Lemma scan_step_cols triplets i st st' :
  scan_step triplets i st = Ok st' -> cols st'.2 = cols st.2.
Proof.
  destruct st as [cur csr]. unfold scan_step.
  destruct (vec_read triplets i) as [t|e]; simpl; [|done].
  destruct (vec_write (col_ind csr) i (col t)) as [ci|e]; simpl; [|done].
  destruct (vec_write (values csr) i (val t)) as [vs|e]; simpl; [|done].
  intros Hskip. by apply skip_rows_cols in Hskip.
Qed.

Lemma fill_step_cols i csr csr' :
  fill_step i csr = Ok csr' -> cols csr' = cols csr.
Proof.
  unfold fill_step. destruct (vec_write _ _ _) as [rp|e]; simpl; [|done].
  by intros [= <-].
Qed.

Lemma coo_to_csr_cols sort triplets nrows ncols n A :
  coo_to_csr sort triplets nrows ncols n = Ok A -> cols A = ncols.
Proof.
  unfold coo_to_csr, vec_alloc.
  destruct (decide (0 <= int_add nrows 1)); cbn [bind]; [|done].
  destruct (decide (0 <= n)); cbn [bind]; [|done].
  rewrite !for_int_for_each.
  destruct (for_each (scan_step _) _ _) as [[cur csr]|e] eqn:Hscan; cbn [bind]; [|done].
  apply (for_each_preserves (fun st => cols st.2 = ncols)) in Hscan; [|done|].
  - rewrite for_int_for_each. intros Hfill.
    apply (for_each_preserves (fun csr => cols csr = ncols)) in Hfill; [done|done|].
    intros i s1 s2 Hs1 Hb. by rewrite (fill_step_cols _ _ _ Hb).
  - intros i s1 s2 Hs1 Hb. by rewrite (scan_step_cols _ _ _ _ Hb).
Qed.

(** X12.  The exit status of [main] is 1 in these cases and in no other:
    the command line does not have four arguments, the chunk size or the
    number of threads is not a number, the schedule is not one of the
    three names, the file cannot be opened, or the file has fewer entries
    than its size line announces.  In each of them the last thing the
    program did is to write its message to [cerr], and no kernel has been
    called.  [main] returns no status other than 0 and 1. *)
Theorem main_exit_status sort env argv :
  ((main sort env argv).1 = Return 1 <->
   length argv ≠ 5%nat \/
   exists prog filename schedule_str arg3 arg4,
     argv = [prog; filename; schedule_str; arg3; arg4] /\
     (stoi arg3 = None \/ stoi arg4 = None \/
      parse_schedule schedule_str = None \/
      file_system env filename = None \/
      exists file,
        file_system env filename = Some file /\
        0 <= mm_nnz file /\ Z.of_nat (length (mm_entries file)) < mm_nnz file)) /\
  ((main sort env argv).1 = Return 1 ->
   (exists tr msg, (main sort env argv).2 = tr ++ [EvStderr msg]) /\
   kernel_calls (main sort env argv).2 = 0%nat) /\
  (forall code, (main sort env argv).1 = Return code -> code = 0 \/ code = 1).
Proof.
  destruct argv as [|a0 [|a1 [|a2 [|a3 [|a4 [|a5 argv]]]]]];
    try (split; [split; [intros _; left; simpl; lia|done]|];
         split; [intros _; split; [by exists [], MsgUsage|done]|];
         intros code [= <-]; by right).
  unfold main.
  destruct (stoi a3) as [chunk|] eqn:H3; [destruct (stoi a4) as [threads|] eqn:H4|];
    [| |].
  2,3: split; [split; [intros _; right; exists a0, a1, a2, a3, a4; rewrite ?H3, ?H4; auto|done]|];
       (split; [intros _; split; [by exists [], MsgNotInteger|done]|]);
       intros code [= <-]; by right.
  destruct (parse_schedule a2) as [kind|] eqn:H2.
  2: { split; [split; [intros _; right; exists a0, a1, a2, a3, a4; auto 6|done]|].
       split; [intros _; split; [by exists [], MsgInvalidScheduling|done]|].
       intros code [= <-]; by right. }
  destruct (file_system env a1) as [file|] eqn:H1.
  2: { split; [split; [intros _; right; exists a0, a1, a2, a3, a4; auto 8|done]|].
       split; [intros _; split; [by eexists _, MsgCannotOpen|done]|].
       intros code [= <-]; by right. }
  assert (forall P : Prop,
            (length [a0; a1; a2; a3; a4] ≠ 5%nat \/
             exists prog filename schedule_str arg3 arg4,
               [a0; a1; a2; a3; a4] = [prog; filename; schedule_str; arg3; arg4] /\
               (stoi arg3 = None \/ stoi arg4 = None \/
                parse_schedule schedule_str = None \/
                file_system env filename = None \/
                exists file,
                  file_system env filename = Some file /\
                  0 <= mm_nnz file /\
                  Z.of_nat (length (mm_entries file)) < mm_nnz file)) ->
            (0 <= mm_nnz file ->
             Z.of_nat (length (mm_entries file)) < mm_nnz file -> P) -> P) as Hcases.
  { intros P [Hlen|(p & fn & s & x3 & x4 & [= <- <- <- <- <-] & Hc)] HP; [done|].
    destruct Hc as [Hc|[Hc|[Hc|[Hc|(file' & Hf & Hn1 & Hn2)]]]]; try congruence.
    rewrite H1 in Hf. injection Hf as <-. by apply HP. }
  destruct (decide (mm_nnz file < 0)) as [Hneg|Hnn].
  { split; [split; [done|]|split; [done|]].
    - intros Hc. apply (Hcases _ Hc). lia.
    - intros code [=]. }
  unfold read_triplets.
  destruct (decide (mm_nnz file <= Z.of_nat (length (mm_entries file)))) as [Hle|Hgt].
  2: { split; [split|].
       - intros _. right. exists a0, a1, a2, a3, a4. split; [done|].
         do 4 right. exists file. split; [done|]. lia.
       - done.
       - split; [intros _; split; [by eexists _, MsgErrorReading|done]|].
         intros code [= <-]; by right. }
  destruct (coo_to_csr _ _ _ _ _) as [csr|e].
  2: { destruct e; simpl; (split; [split; [done|]|split; [done|]]);
         try (intros Hc; apply (Hcases _ Hc); lia); intros code [=]. }
  destruct (benchmark _ _ _ _ _) as [st|e].
  2: { destruct e; simpl; (split; [split; [done|]|split; [done|]]);
         try (intros Hc; apply (Hcases _ Hc); lia); intros code [=]. }
  split; [split; [done|]|split; [done|]].
  - intros Hc. apply (Hcases _ Hc). lia.
  - intros code [= <-]. by left.
Qed.

Lemma main_exit_status_witness :
  length ["spmv"; "m.mtx"]%string ≠ 5%nat /\
  (main merge_sort_triplets example_env ["spmv"; "m.mtx"]%string).1 = Return 1 /\
  (exists tr msg,
     (main merge_sort_triplets example_env ["spmv"; "m.mtx"]%string).2 =
     tr ++ [EvStderr msg]) /\
  kernel_calls (main merge_sort_triplets example_env ["spmv"; "m.mtx"]%string).2 = 0%nat.
Proof.
  assert (length ["spmv"; "m.mtx"]%string ≠ 5%nat) as H by (simpl; lia).
  pose proof (main_exit_status merge_sort_triplets example_env
                ["spmv"; "m.mtx"]%string) as (Hiff & Hmsg & _).
  pose proof (proj2 Hiff (or_introl H)) as H1.
  split; [exact H|]. split; [exact H1|]. exact (Hmsg H1).
Defined.

(** X13.  Whenever [main] returns 0, whatever the files, the clock, the
    random numbers and the OpenMP runtime are, it has done exactly this,
    in this order: the two OpenMP settings with the numbers of the command
    line, the opening of the file, one random draw for each column, the
    warm-up call of the kernel, ten times a clock reading, a kernel call
    and a clock reading, and the CSV line with the name of the matrix
    ([extract_matrix_name] of the path of the file), the schedule, the
    chunk size, the number of threads and the ten durations in
    milliseconds: eleven kernel calls in all. *)
Theorem main_success sort env argv tr :
  main sort env argv = (Return 0, tr) ->
  exists prog filename schedule_str arg3 arg4 kind chunk threads file,
    argv = [prog; filename; schedule_str; arg3; arg4] /\
    parse_schedule schedule_str = Some kind /\
    stoi arg3 = Some chunk /\ stoi arg4 = Some threads /\
    file_system env filename = Some file /\
    tr = [EvSetNumThreads threads; EvSetSchedule kind chunk; EvOpen filename] ++
         replicate (Z.to_nat (mm_cols file)) EvRandom ++ [EvKernel] ++
         mjoin (replicate 10 [EvWtime; EvKernel; EvWtime]) ++
         [EvCsv (extract_matrix_name (list_ascii_of_string filename))
            schedule_str chunk threads (durations env 0 10)] /\
    kernel_calls tr = 11%nat.
Proof.
  destruct argv as [|a0 [|a1 [|a2 [|a3 [|a4 [|a5 argv]]]]]]; try done.
  unfold main.
  destruct (stoi a3) as [chunk|] eqn:H3; [|done].
  destruct (stoi a4) as [threads|] eqn:H4; [|done].
  destruct (parse_schedule a2) as [kind|] eqn:H2; [|done].
  destruct (file_system env a1) as [file|] eqn:H1; [|done].
  destruct (decide (mm_nnz file < 0)); [done|].
  destruct (read_triplets _ _) as [triplets|]; [|done].
  destruct (coo_to_csr _ _ _ _ _) as [csr|e] eqn:Hcsr; [|by destruct e].
  change NUM_RUNS with (Z.of_nat 10).
  destruct (benchmark _ _ _ _ _) as [st|e] eqn:Hbench; [|by destruct e].
  intros [= <-].
  apply benchmark_success in Hbench as [Htimes Htrace].
  cbn [n_ticks trace] in Htimes, Htrace.
  apply coo_to_csr_cols in Hcsr as Hcols.
  exists a0, a1, a2, a3, a4, kind, chunk, threads, file.
  rewrite Htimes, Htrace, Hcols. split_and!; try done.
  - by rewrite <-!app_assoc.
  - rewrite !kernel_calls_app, kernel_calls_random, kernel_calls_timed. done.
Qed.

Lemma main_success_witness :
  main merge_sort_triplets example_env
    ["spmv"; "data/m.mtx"; "guided"; "10"; "4"]%string =
    (Return 0,
     (main merge_sort_triplets example_env
        ["spmv"; "data/m.mtx"; "guided"; "10"; "4"]%string).2) /\
  exists prog filename schedule_str arg3 arg4 kind chunk threads file,
    ["spmv"; "data/m.mtx"; "guided"; "10"; "4"]%string =
      [prog; filename; schedule_str; arg3; arg4] /\
    parse_schedule schedule_str = Some kind /\
    stoi arg3 = Some chunk /\ stoi arg4 = Some threads /\
    file_system example_env filename = Some file /\
    (main merge_sort_triplets example_env
       ["spmv"; "data/m.mtx"; "guided"; "10"; "4"]%string).2 =
      [EvSetNumThreads threads; EvSetSchedule kind chunk; EvOpen filename] ++
      replicate (Z.to_nat (mm_cols file)) EvRandom ++ [EvKernel] ++
      mjoin (replicate 10 [EvWtime; EvKernel; EvWtime]) ++
      [EvCsv (extract_matrix_name (list_ascii_of_string filename))
         schedule_str chunk threads (durations example_env 0 10)] /\
    kernel_calls (main merge_sort_triplets example_env
                    ["spmv"; "data/m.mtx"; "guided"; "10"; "4"]%string).2 = 11%nat.
Proof.
  assert (main merge_sort_triplets example_env
            ["spmv"; "data/m.mtx"; "guided"; "10"; "4"]%string =
          (Return 0,
           (main merge_sort_triplets example_env
              ["spmv"; "data/m.mtx"; "guided"; "10"; "4"]%string).2)) as H
    by (vm_compute; reflexivity).
  split; [exact H|].
  exact (main_success merge_sort_triplets example_env
           ["spmv"; "data/m.mtx"; "guided"; "10"; "4"]%string _ H).
Defined.

(** X14.  [main] does not check the numbers of the size line.  With a
    command line that it accepts and a file that it can open, a negative
    number of entries, and (for a file that holds the entries that it
    announces) a number of rows below -1 or the number of rows [INT_MAX],
    for which [rows + 1] overflows, end the program with a
    [std::length_error] that is thrown by the allocation and not caught:
    the program has made its OpenMP settings and opened the file, has
    written no message, has called no kernel and prints no CSV line. *)
Theorem main_malformed_file sort env prog filename schedule_str arg3 arg4
    kind chunk threads file :
  parse_schedule schedule_str = Some kind ->
  stoi arg3 = Some chunk -> stoi arg4 = Some threads ->
  file_system env filename = Some file ->
  mm_nnz file < 0 \/
  (0 <= mm_nnz file <= Z.of_nat (length (mm_entries file)) /\
   (INT_MIN <= mm_rows file < -1 \/ mm_rows file = INT_MAX)) ->
  main sort env [prog; filename; schedule_str; arg3; arg4] =
  (Terminate,
   [EvSetNumThreads threads; EvSetSchedule kind chunk; EvOpen filename]).
Proof.
  intros H2 H3 H4 H1 Hbad. unfold main. rewrite H1, H2, H3, H4.
  destruct Hbad as [Hneg|[Hnnz Hrows]].
  - by rewrite decide_True by done.
  - rewrite decide_False by lia.
    destruct (read_triplets _ _) as [triplets|] eqn:Hread.
    2: { unfold read_triplets in Hread. by rewrite decide_True in Hread by lia. }
    rewrite <-(read_triplets_length _ _ _ (proj1 Hnnz) Hread).
    fold (build sort triplets (mm_rows file) (mm_cols file)).
    destruct Hrows as [Hrows|Hrows].
    + by rewrite build_length_error.
    + by rewrite Hrows, build_length_error_max.
Qed.

Lemma main_malformed_file_witness :
  (0 <= 0 <= Z.of_nat (length (@nil (Z * Z * float))) /\
   (INT_MIN <= INT_MAX < -1 \/ INT_MAX = INT_MAX)) /\
  main merge_sort_triplets huge_env ["spmv"; "m.mtx"; "static"; "10"; "4"]%string =
  (Terminate,
   [EvSetNumThreads 4; EvSetSchedule omp_sched_static 10; EvOpen "m.mtx"]).
Proof.
  assert (0 <= 0 <= Z.of_nat (length (@nil (Z * Z * float))) /\
          (INT_MIN <= INT_MAX < -1 \/ INT_MAX = INT_MAX)) as Hbad
    by (split; [simpl; lia|by right]).
  split; [exact Hbad|].
  apply (main_malformed_file merge_sort_triplets huge_env
           "spmv" "m.mtx" "static" "10" "4" omp_sched_static 10 4
           (mkMtx INT_MAX 1 0 []));
    [reflexivity|reflexivity|reflexivity|reflexivity|right; exact Hbad].
Defined.
